(** * Flycacher: a capacity- and TTL-bounded key-value cache

    Shallow embedding of [src/index.ts].  The class [Flycacher<K, V>] keeps
    a JavaScript [Map] from keys to entries, two numbers that drive the
    capacity pruning, an optional time to live, and the cursor [oldest].

    Modelling choices.
    - The JavaScript [Map] is insertion ordered with unique keys: it is an
      association list, oldest entry first.
    - [capacity], [pruneAmount], [ttl] and the readings of [Date.now()] are
      integers ([Z]).
    - Every call of [Date.now()] is an explicit argument of the method that
      makes it; the runner of operation sequences derives the readings from
      non-negative delays, so the clock never runs backwards.
    - The miss callback is an effectful function on an outside world [W];
      every invocation is also written to a log of keys.
    - Two runners of call sequences.  [run] makes the calls one after the
      other: each [get] returns before the next call is made, so nothing
      touches the cache while a [get] awaits the miss callback.  [irun]
      lets calls overlap: a [get] runs up to its await, other calls run,
      and the [get] resumes later.  [run] is [irun] on the schedules that
      resume every [get] at once. *)

From Stdlib Require Import List ZArith NArith Bool Lia String Sorted.
Import ListNotations.

Local Open Scope Z_scope.

Set Implicit Arguments.

(** ** Data model *)

(** [interface FlycacherOptions] *)
Record FlycacherOptions : Type := mkOptions {
  opt_capacity : Z;
  opt_prune : Z;
  opt_ttl : option Z
}.

(** [interface Entry<T>] *)
Record Entry (T : Type) : Type := mkEntry {
  value : T;
  entered : Z
}.

(** ** The insertion-ordered [Map] *)

Section OrderedMap.
Variables K T : Type.
Hypothesis K_eq_dec : forall x y : K, {x = y} + {x <> y}.

Definition JsMap : Type := list (K * T).

Definition Map_size (m : JsMap) : Z := Z.of_nat (List.length m).

Definition Map_keys (m : JsMap) : list K := map fst m.

Fixpoint Map_get (key : K) (m : JsMap) : option T :=
  match m with
  | [] => None
  | (k, x) :: m' => if K_eq_dec key k then Some x else Map_get key m'
  end.

(** [Map.prototype.set]: an existing key keeps its position, a new key
    goes to the end. *)
Fixpoint Map_set (key : K) (x : T) (m : JsMap) : JsMap :=
  match m with
  | [] => [(key, x)]
  | (k, y) :: m' =>
      if K_eq_dec key k then (k, x) :: m' else (k, y) :: Map_set key x m'
  end.

Fixpoint Map_delete (key : K) (m : JsMap) : JsMap :=
  match m with
  | [] => []
  | (k, y) :: m' =>
      if K_eq_dec key k then m' else (k, y) :: Map_delete key m'
  end.

Definition Map_clear (m : JsMap) : JsMap := [].
End OrderedMap.

(** ** The class *)

Section Flycacher.
Variables K V E W : Type.
Hypothesis K_eq_dec : forall x y : K, {x = y} + {x <> y}.

(** [missCallback]: it fails with an [E] or yields a [V], and acts on the
    outside world. *)
Variable missCallback : K -> W -> (E + V) * W.

Record Flycacher : Type := mkFlycacher {
  values : JsMap K (Entry V);
  capacity : Z;
  pruneAmount : Z;
  ttl : option Z;
  oldest : Z
}.

Definition set_values (m : JsMap K (Entry V)) (c : Flycacher) : Flycacher :=
  mkFlycacher m (capacity c) (pruneAmount c) (ttl c) (oldest c).

Definition set_oldest (t : Z) (c : Flycacher) : Flycacher :=
  mkFlycacher (values c) (capacity c) (pruneAmount c) (ttl c) t.

(** The constructor; [now] is the reading of the field initialiser
    [oldest = Date.now()].  [options.ttl || null] turns a missing or zero
    ttl into [null]. *)
Definition new_Flycacher (now : Z) (options : FlycacherOptions) : Flycacher :=
  mkFlycacher []
    (opt_capacity options)
    (opt_prune options)
    (match opt_ttl options with
     | Some t => if t =? 0 then None else Some t
     | None => None
     end)
    now.

Definition clear (c : Flycacher) : Flycacher :=
  set_values (Map_clear (values c)) c.

Definition delete (key : K) (c : Flycacher) : Flycacher :=
  set_values (Map_delete K_eq_dec key (values c)) c.

(** The loop of the capacity pass,
    [for (const key of this.values.keys()) { delete; if (...) break; }].
    The iterator is live, but the body deletes only the key it is visiting,
    so the keys visited are the keys [ks] the map had on entry, in order.
    The first component logs the deleted keys in the order of deletion. *)
Fixpoint capacity_loop (cap amount : Z) (ks : list K) (m : JsMap K (Entry V))
  : list K * JsMap K (Entry V) :=
  match ks with
  | [] => ([], m)
  | key :: ks' =>
      let m1 := Map_delete K_eq_dec key m in
      if Map_size m1 <=? cap - amount then ([key], m1)
      else let (log, m2) := capacity_loop cap amount ks' m1 in (key :: log, m2)
  end.

(** The loop of the TTL pass,
    [for (const [key, value] of this.values) { ... }], over the entries
    [es] the map had on entry.  It yields the log of deleted keys, the map
    and the cursor [oldest]. *)
Fixpoint ttl_loop (expiry : Z) (es : list (K * Entry V))
    (m : JsMap K (Entry V)) (old : Z) : list K * JsMap K (Entry V) * Z :=
  match es with
  | [] => ([], m, old)
  | (key, val) :: es' =>
      if entered val <? expiry then
        let '(log, m', old') :=
          ttl_loop expiry es' (Map_delete K_eq_dec key m) old in
        (key :: log, m', old')
      else ([], m, entered val)
  end.

(** First half of [prune]: lines 83-90. *)
Definition capacity_pass (c : Flycacher) : list K * Flycacher :=
  if capacity c <? Map_size (values c) then
    let (log, m) :=
      capacity_loop (capacity c) (pruneAmount c)
        (Map_keys (values c)) (values c) in
    (log, set_values m c)
  else ([], c).

(** Second half of [prune]: lines 91-106.  [now] is the reading of line
    92, [now'] the one of line 104.  The guard is
    [this.ttl && this.values.size > 0 && this.ttl > 0]: a number is truthy
    when it is not zero. *)
Definition ttl_pass (now now' : Z) (c : Flycacher) : list K * Flycacher :=
  match ttl c with
  | Some t =>
      if negb (t =? 0) && (0 <? Map_size (values c)) && (0 <? t) then
        let expiry := now - t in
        let (log, c1) :=
          if oldest c <? expiry then
            let '(log, m, old) :=
              ttl_loop expiry (values c) (values c) (oldest c) in
            (log, mkFlycacher m (capacity c) (pruneAmount c) (ttl c) old)
          else ([], c) in
        if Map_size (values c1) =? 0 then (log, set_oldest now' c1)
        else (log, c1)
      else ([], c)
  | None => ([], c)
  end.

(** [prune()] with the log of the keys it deleted, in the order of
    deletion. *)
Definition prune_log (now now' : Z) (c : Flycacher) : list K * Flycacher :=
  let (log1, c1) := capacity_pass c in
  let (log2, c2) := ttl_pass now now' c1 in
  (log1 ++ log2, c2).

Definition prune (now now' : Z) (c : Flycacher) : Flycacher :=
  snd (prune_log now now' c).

(** The outside world of the miss callback together with the log of the
    keys it was invoked with. *)
Definition World : Type := (W * list K)%type.

Definition invoke (key : K) (w : World) : (E + V) * World :=
  let (r, w') := missCallback key (fst w) in (r, (w', snd w ++ [key])).

(** [async get(key)].  [now] and [now'] are the readings inside [prune],
    [now_set] the one of line 78, taken after the await.  The result is
    what the promise settles to: [inl] for a rejection. *)
Definition get (key : K) (now now' now_set : Z) (c : Flycacher) (w : World)
  : (E + V) * Flycacher * World :=
  let c1 := prune now now' c in
  match Map_get K_eq_dec key (values c1) with
  | Some hit => (inr (value hit), c1, w)
  | None =>
      match invoke key w with
      | (inl err, w') => (inl err, c1, w')
      | (inr v, w') =>
          (inr v,
           set_values (Map_set K_eq_dec key (mkEntry v now_set) (values c1)) c1,
           w')
      end
  end.

(** ** [get] across the await

    An [async] function runs up to its first [await] at once and the rest
    when the awaited promise settles.  [get_start] is [get] up to the await
    of line 77: lines 72-76 and the invocation of the miss callback.
    [get_resume] is what runs once the promise has resolved, lines 78-79;
    other calls may have been made in between.  A rejected promise runs
    nothing more. *)

Inductive Started : Type :=
| Returned (v : V)
| Awaiting (outcome : E + V).

Definition get_start (key : K) (now now' : Z) (c : Flycacher) (w : World)
  : Started * Flycacher * World :=
  let c1 := prune now now' c in
  match Map_get K_eq_dec key (values c1) with
  | Some hit => (Returned (value hit), c1, w)
  | None => let (r, w') := invoke key w in (Awaiting r, c1, w')
  end.

Definition get_resume (key : K) (v : V) (now_set : Z) (c : Flycacher)
  : Flycacher :=
  set_values (Map_set K_eq_dec key (mkEntry v now_set) (values c)) c.

(** ** Sequences of calls made one after the other

    A system is the cache, the outside world and the clock.  An operation
    carries the time that passes before each reading of [Date.now()] it
    may make: lines 92, 104 and, for [get], line 78.  [OpGet] is a whole
    call of [get], from line 72 to its return: no other call runs while it
    awaits the miss callback.  Calls that overlap are the matter of [istep]
    below. *)

Inductive op : Type :=
| OpGet (key : K) (d1 d2 d3 : N)
| OpPrune (d1 d2 : N)
| OpDelete (key : K)
| OpClear.

Record Sys : Type := mkSys {
  cache : Flycacher;
  world : World;
  clock : Z
}.

Definition step (o : op) (s : Sys) : Sys :=
  match o with
  | OpGet key d1 d2 d3 =>
      let now := clock s + Z.of_N d1 in
      let now' := now + Z.of_N d2 in
      let now_set := now' + Z.of_N d3 in
      let '(_, c, w) := get key now now' now_set (cache s) (world s) in
      mkSys c w now_set
  | OpPrune d1 d2 =>
      let now := clock s + Z.of_N d1 in
      let now' := now + Z.of_N d2 in
      mkSys (prune now now' (cache s)) (world s) now'
  | OpDelete key => mkSys (delete key (cache s)) (world s) (clock s)
  | OpClear => mkSys (clear (cache s)) (world s) (clock s)
  end.

Definition run (ops : list op) (s : Sys) : Sys :=
  fold_left (fun s o => step o s) ops s.

(** Construction at time [t0] in the outside world [w0]. *)
Definition boot (t0 : Z) (options : FlycacherOptions) (w0 : W) : Sys :=
  mkSys (new_Flycacher t0 options) (w0, []) t0.

(** [o] is a [get] of [key]. *)
Definition is_get_of (key : K) (o : op) : bool :=
  match o with
  | OpGet k _ _ _ => if K_eq_dec k key then true else false
  | _ => false
  end.

(** The entries are in the order of their timestamps. *)
Definition by_age (m : JsMap K (Entry V)) : Prop :=
  StronglySorted (fun a b => entered (snd a) <= entered (snd b)) m.

(** What the clock and the sequential use of the cache maintain. *)
Record time_inv (s : Sys) : Prop := mkTimeInv {
  inv_sorted : by_age (values (cache s));
  inv_oldest :
    Forall (fun kv => oldest (cache s) <= entered (snd kv)) (values (cache s));
  inv_past :
    Forall (fun kv => entered (snd kv) <= clock s) (values (cache s));
  inv_oldest_past : oldest (cache s) <= clock s
}.

(** ** Sequences of calls that overlap

    While a [get] awaits the miss callback the event loop runs other calls.
    The system now also holds the calls of [get] that are awaiting, each
    with its key and the value its promise resolves to.  [IStart] runs a
    [get] up to its await, [IResume i] lets time pass and then resumes the
    [i]-th awaiting call, if there is one. *)

Inductive iop : Type :=
| IStart (key : K) (d1 d2 : N)
| IResume (i : nat) (d : N)
| IPrune (d1 d2 : N)
| IDelete (key : K)
| IClear.

Record ISys : Type := mkISys {
  icache : Flycacher;
  iworld : World;
  iclock : Z;
  awaiting : list (K * V)
}.

Definition remove_nth (i : nat) (l : list (K * V)) : list (K * V) :=
  firstn i l ++ skipn (S i) l.

Definition istep (o : iop) (s : ISys) : ISys :=
  match o with
  | IStart key d1 d2 =>
      let now := iclock s + Z.of_N d1 in
      let now' := now + Z.of_N d2 in
      match get_start key now now' (icache s) (iworld s) with
      | (Returned v, c, w) => mkISys c w now' (awaiting s)
      | (Awaiting (inl err), c, w) => mkISys c w now' (awaiting s)
      | (Awaiting (inr v), c, w) => mkISys c w now' (awaiting s ++ [(key, v)])
      end
  | IResume i d =>
      let now_set := iclock s + Z.of_N d in
      match nth_error (awaiting s) i with
      | Some (key, v) =>
          mkISys (get_resume key v now_set (icache s)) (iworld s) now_set
            (remove_nth i (awaiting s))
      | None => mkISys (icache s) (iworld s) now_set (awaiting s)
      end
  | IPrune d1 d2 =>
      let now := iclock s + Z.of_N d1 in
      let now' := now + Z.of_N d2 in
      mkISys (prune now now' (icache s)) (iworld s) now' (awaiting s)
  | IDelete key =>
      mkISys (delete key (icache s)) (iworld s) (iclock s) (awaiting s)
  | IClear => mkISys (clear (icache s)) (iworld s) (iclock s) (awaiting s)
  end.

Definition irun (ops : list iop) (s : ISys) : ISys :=
  fold_left (fun s o => istep o s) ops s.

Definition iboot (t0 : Z) (options : FlycacherOptions) (w0 : W) : ISys :=
  mkISys (new_Flycacher t0 options) (w0, []) t0 [].

(** A call made on its own is a schedule in which nothing awaits when it
    starts and in which a [get] resumes at once. *)
Definition schedule_of (o : op) : list iop :=
  match o with
  | OpGet key d1 d2 d3 => [IStart key d1 d2; IResume 0 d3]
  | OpPrune d1 d2 => [IPrune d1 d2]
  | OpDelete key => [IDelete key]
  | OpClear => [IClear]
  end.

Definition idle (s : Sys) : ISys := mkISys (cache s) (world s) (clock s) [].

End Flycacher.

(** ** A concrete cache

    Keys are strings, values are integers.  The miss callback rejects the
    key [boom] and resolves any other key to its length; the outside world
    counts its invocations. *)

Local Open Scope string_scope.
Local Open Scope list_scope.
Local Open Scope Z_scope.

Definition sample_miss (key : string) (n : nat) : (string + Z) * nat :=
  if string_dec key "boom" then (inl "rejected", S n)
  else (inr (Z.of_nat (String.length key)), S n).

Definition sample_options : FlycacherOptions := mkOptions 3 2 None.

Definition sample_ttl_options : FlycacherOptions := mkOptions 3 2 (Some 1000).

Definition sample_get (key : string) : op string := OpGet key 0 0 0.

(** Entries [a], [b], [c], [d] in a cache of capacity 3 that prunes 2. *)
Definition sample_abcd : Flycacher string Z :=
  mkFlycacher
    [("a", mkEntry 1 0); ("b", mkEntry 1 0); ("c", mkEntry 1 0);
     ("d", mkEntry 1 0)] 3 2 None 0.

(** The system after construction at time 0. *)
Definition sample_boot (options : FlycacherOptions) : Sys string Z nat :=
  boot string Z 0 options 0%nat.

Definition sample_run (ops : list (op string)) (s : Sys string Z nat)
  : Sys string Z nat :=
  run string_dec sample_miss ops s.

(** Four misses in a row at time 0: the cache of capacity 3 is then one
    entry over. *)
Definition sample_full : Sys string Z nat :=
  sample_run
    [sample_get "a"; sample_get "b"; sample_get "c"; sample_get "d"]
    (sample_boot sample_options).

(** With ttl 1000, the key [x] inserted at time 0. *)
Definition sample_x : Sys string Z nat :=
  sample_run [sample_get "x"] (sample_boot sample_ttl_options).

(** A cache whose [pruneAmount] is larger than its [capacity]. *)
Definition sample_greedy : Flycacher string Z :=
  mkFlycacher [("a", mkEntry 1 0); ("b", mkEntry 1 0)] 1 5 None 0.

(** Overlapping calls on a cache with ttl 10, constructed at time 0: two
    calls of [get] for [k] start, the first resolves at time 1, a [get]
    for [j] starts and resolves at time 2, the second [get] for [k]
    resolves at time 20, and [prune] is called at time 21. *)
Definition sample_overlap_options : FlycacherOptions := mkOptions 3 2 (Some 10).

Definition sample_overlap : ISys string Z nat :=
  irun string_dec sample_miss
    [IStart "k" 0 0; IStart "k" 0 0; IResume string 0 1; IStart "j" 0 0;
     IResume string 1 1; IResume string 0 18; IPrune string 1 0]
    (iboot string Z 0 sample_overlap_options 0%nat).

(** JavaScript values that a cache may hold, with [ToBoolean]. *)
Inductive JsValue : Type :=
| JsUndefined
| JsNull
| JsBoolean (b : bool)
| JsNumber (z : Z)
| JsString (s : string).

Definition ToBoolean (v : JsValue) : bool :=
  match v with
  | JsUndefined => false
  | JsNull => false
  | JsBoolean b => b
  | JsNumber z => negb (z =? 0)
  | JsString s => negb (String.eqb s "")
  end.

(** A cache that holds the five falsy values. *)
Definition sample_falsy : Flycacher string JsValue :=
  mkFlycacher
    [("zero", mkEntry (JsNumber 0) 0); ("empty", mkEntry (JsString "") 0);
     ("false", mkEntry (JsBoolean false) 0); ("null", mkEntry JsNull 0);
     ("undefined", mkEntry JsUndefined 0)] 8 2 None 0.

(** A miss callback that always rejects. *)
Definition rejecting_miss (key : string) (n : nat) : (string + JsValue) * nat :=
  (inl "rejected", S n).

(** * Properties *)

Section MapFacts.
Variables K T : Type.
Variable K_eq_dec : forall x y : K, {x = y} + {x <> y}.

Lemma Map_delete_head (k : K) (x : T) (m : JsMap K T) :
  Map_delete K_eq_dec k ((k, x) :: m) = m.
Proof.
  simpl. destruct (K_eq_dec k k) as [_ | Hne]; [reflexivity | now elim Hne].
Qed.

Lemma Map_size_nonneg (m : JsMap K T) : 0 <= Map_size m.
Proof. unfold Map_size. lia. Qed.

Lemma Map_size_cons (kv : K * T) (m : JsMap K T) :
  Map_size (kv :: m) = Map_size m + 1.
Proof. unfold Map_size. simpl List.length. lia. Qed.

Lemma Map_size_zero (m : JsMap K T) : Map_size m = 0 -> m = [].
Proof.
  destruct m as [| kv m]; [reflexivity | rewrite Map_size_cons].
  pose proof (Map_size_nonneg m). lia.
Qed.

Lemma Map_size_skipn (n : nat) (m : JsMap K T) :
  (n <= List.length m)%nat -> Map_size (skipn n m) = Map_size m - Z.of_nat n.
Proof. intros Hn. unfold Map_size. rewrite length_skipn. lia. Qed.

Lemma Map_size_skipn_le (n : nat) (m : JsMap K T) :
  Map_size (skipn n m) <= Map_size m.
Proof. unfold Map_size. rewrite length_skipn. lia. Qed.

Lemma Map_get_In (key : K) (x : T) (m : JsMap K T) :
  Map_get K_eq_dec key m = Some x -> In (key, x) m.
Proof.
  induction m as [| [k y] m IH]; simpl; [discriminate |].
  destruct (K_eq_dec key k) as [-> | _].
  - intros [= ->]. now left.
  - intros H. right. now apply IH.
Qed.

Lemma Map_get_None (key : K) (m : JsMap K T) :
  Map_get K_eq_dec key m = None <-> ~ In key (Map_keys m).
Proof.
  induction m as [| [k y] m IH]; simpl.
  - tauto.
  - destruct (K_eq_dec key k) as [-> | Hne].
    + split; [discriminate | intros H; elim H; now left].
    + rewrite IH. split; intros H; [intros [Hk | Hk] | ]; try tauto.
      now elim Hne.
Qed.

Lemma In_Map_get (key : K) (x : T) (m : JsMap K T) :
  NoDup (Map_keys m) -> In (key, x) m -> Map_get K_eq_dec key m = Some x.
Proof.
  induction m as [| [k y] m IH]; simpl; [tauto |].
  intros Hnd [Heq | Hin]; inversion Hnd as [| ? ? Hk Hnd']; subst.
  - injection Heq as -> ->.
    destruct (K_eq_dec key key) as [_ | Hne]; [reflexivity | now elim Hne].
  - destruct (K_eq_dec key k) as [-> | _]; [| now apply IH].
    elim Hk. change k with (fst (k, x)). now apply in_map.
Qed.

(** A new key goes to the end of the map. *)
Lemma Map_set_fresh (key : K) (x : T) (m : JsMap K T) :
  Map_get K_eq_dec key m = None -> Map_set K_eq_dec key x m = m ++ [(key, x)].
Proof.
  induction m as [| [k y] m IH]; simpl; [reflexivity |].
  destruct (K_eq_dec key k); [discriminate |].
  intros H. now rewrite IH.
Qed.

Lemma Map_get_app_fresh (key : K) (x : T) (m : JsMap K T) :
  Map_get K_eq_dec key m = None ->
  Map_get K_eq_dec key (m ++ [(key, x)]) = Some x.
Proof.
  induction m as [| [k y] m IH]; simpl.
  - destruct (K_eq_dec key key) as [_ | Hne]; [reflexivity | now elim Hne].
  - destruct (K_eq_dec key k); [discriminate | exact IH].
Qed.

Lemma Map_get_skipn (key : K) (x : T) (n : nat) (m : JsMap K T) :
  NoDup (Map_keys m) ->
  Map_get K_eq_dec key (skipn n m) = Some x -> Map_get K_eq_dec key m = Some x.
Proof.
  intros Hnd H. apply In_Map_get; [exact Hnd |].
  apply Map_get_In in H.
  rewrite <- (firstn_skipn n m). apply in_or_app. now right.
Qed.

Lemma Map_keys_delete_incl (key k : K) (m : JsMap K T) :
  In k (Map_keys (Map_delete K_eq_dec key m)) -> In k (Map_keys m).
Proof.
  induction m as [| [k' y] m IH]; simpl; [tauto |].
  destruct (K_eq_dec key k'); simpl; tauto.
Qed.

Lemma NoDup_Map_delete (key : K) (m : JsMap K T) :
  NoDup (Map_keys m) -> NoDup (Map_keys (Map_delete K_eq_dec key m)).
Proof.
  induction m as [| [k' y] m IH]; simpl; [trivial |].
  intros Hnd. inversion Hnd as [| ? ? Hk Hnd']; subst.
  destruct (K_eq_dec key k'); [exact Hnd' |].
  simpl. constructor; [| now apply IH].
  intros Hin. apply Hk. eapply Map_keys_delete_incl. exact Hin.
Qed.

Lemma firstn_plus (n1 n2 : nat) (l : list (K * T)) :
  firstn (n1 + n2) l = firstn n1 l ++ firstn n2 (skipn n1 l).
Proof.
  revert l. induction n1 as [| n1 IH]; intros l; [reflexivity |].
  destruct l as [| a l]; simpl.
  - now rewrite firstn_nil.
  - now rewrite IH.
Qed.
End MapFacts.

Section PruneFacts.
Variables K V : Type.
Variable K_eq_dec : forall x y : K, {x = y} + {x <> y}.

Local Abbreviation Cache := (Flycacher K V).
Local Abbreviation Entries := (JsMap K (Entry V)).

Lemma set_values_same (c : Cache) : set_values (values c) c = c.
Proof. now destruct c. Qed.

(** The capacity loop deletes a prefix of the map: at least one entry
    when there is one, and no more than it takes to reach the target. *)
Lemma capacity_loop_spec (cap amount : Z) (m : Entries) :
  exists n : nat,
    (n <= List.length m)%nat /\
    capacity_loop K_eq_dec cap amount (Map_keys m) m
      = (Map_keys (firstn n m), skipn n m) /\
    (m <> [] -> (1 <= n)%nat) /\
    (Map_size (skipn n m) <= cap - amount \/ n = List.length m) /\
    (forall j : nat, (1 <= j < n)%nat -> cap - amount < Map_size (skipn j m)).
Proof.
  induction m as [| [k e] m IH].
  - exists 0%nat. simpl. repeat split; auto; try lia. congruence.
  - cbn [Map_keys map fst capacity_loop]. rewrite Map_delete_head.
    destruct (Map_size m <=? cap - amount) eqn:Hstop.
    + exists 1%nat. simpl. apply Z.leb_le in Hstop.
      repeat split; auto; try lia.
    + apply Z.leb_gt in Hstop.
      destruct IH as (n & Hn & Hloop & _ & Hend & Hmin).
      fold (Map_keys m). rewrite Hloop.
      exists (S n). simpl. repeat split; auto; try lia.
      intros [| j] Hj; [lia |]. simpl.
      destruct j as [| j]; [exact Hstop |].
      apply Hmin. lia.
Qed.

(** The TTL loop deletes the leading expired entries and stops at the
    first entry that is not expired, whose timestamp it records. *)
Lemma ttl_loop_spec (expiry old : Z) (m : Entries) :
  exists (n : nat) (old' : Z),
    (n <= List.length m)%nat /\
    ttl_loop K_eq_dec expiry m m old
      = (Map_keys (firstn n m), skipn n m, old') /\
    Forall (fun kv => entered (snd kv) < expiry) (firstn n m) /\
    ((skipn n m = [] /\ old' = old) \/
     (exists k e rest, skipn n m = (k, e) :: rest /\
                       expiry <= entered e /\ old' = entered e)).
Proof.
  induction m as [| [k e] m IH].
  - exists 0%nat, old. simpl. repeat split; auto.
  - cbn [ttl_loop]. rewrite Map_delete_head.
    destruct (entered e <? expiry) eqn:Hexp.
    + apply Z.ltb_lt in Hexp.
      destruct IH as (n & old' & Hn & Hloop & Hall & Hend).
      rewrite Hloop. exists (S n), old'. simpl.
      repeat split; auto; try lia.
    + apply Z.ltb_ge in Hexp.
      exists 0%nat, (entered e). simpl. repeat split; auto; try lia.
      right. now exists k, e, m.
Qed.

Lemma capacity_pass_spec_n (c : Cache) :
  exists n : nat,
    (n <= List.length (values c))%nat /\
    capacity_pass K_eq_dec c
      = (Map_keys (firstn n (values c)), set_values (skipn n (values c)) c).
Proof.
  unfold capacity_pass.
  destruct (capacity c <? Map_size (values c)).
  - destruct (capacity_loop_spec (capacity c) (pruneAmount c) (values c))
      as (n & Hn & Hloop & _).
    rewrite Hloop. now exists n.
  - exists 0%nat. simpl. rewrite set_values_same. split; [lia | reflexivity].
Qed.

(** The TTL pass does nothing on an empty map, without a ttl, and when
    the cursor is not older than the expiry threshold. *)
Lemma ttl_pass_idle (now now' : Z) (c : Cache) :
  values c = [] \/ ttl c = None \/
  (exists t, ttl c = Some t /\ (t <= 0 \/ now - t <= oldest c)) ->
  ttl_pass K_eq_dec now now' c = ([], c).
Proof.
  intros Hidle. unfold ttl_pass.
  destruct (ttl c) as [t |] eqn:Httl; [| reflexivity].
  destruct (negb (t =? 0) && (0 <? Map_size (values c)) && (0 <? t))
    eqn:Hguard; [| reflexivity].
  apply andb_prop in Hguard as [Hguard Hpos].
  apply andb_prop in Hguard as [_ Hsize].
  apply Z.ltb_lt in Hpos. apply Z.ltb_lt in Hsize.
  destruct Hidle as [Hnil | [Hnone | (t' & [= <-] & [Ht | Hold])]];
    [rewrite Hnil in Hsize; discriminate Hsize | discriminate | lia |].
  replace (oldest c <? now - t) with false
    by (symmetry; apply Z.ltb_ge; exact Hold).
  replace (Map_size (values c) =? 0) with false; [reflexivity |].
  symmetry. apply Z.eqb_neq. lia.
Qed.

(** What the TTL pass does to the map and to the cursor, case by case:
    it is idle, or it scans the map from the front. *)
Lemma ttl_pass_cases (now now' : Z) (c : Cache) :
  (values c = [] \/ ttl c = None \/
   (exists t, ttl c = Some t /\ (t <= 0 \/ now - t <= oldest c))) \/
  exists (t : Z) (n : nat) (old' : Z),
    ttl c = Some t /\ 0 < t /\ values c <> [] /\ oldest c < now - t /\
    (n <= List.length (values c))%nat /\
    Forall (fun kv => entered (snd kv) < now - t) (firstn n (values c)) /\
    ttl_pass K_eq_dec now now' c
      = (Map_keys (firstn n (values c)),
         mkFlycacher (skipn n (values c)) (capacity c) (pruneAmount c)
           (ttl c) old') /\
    ((skipn n (values c) = [] /\ old' = now') \/
     (exists k e rest, skipn n (values c) = (k, e) :: rest /\
                       now - t <= entered e /\ old' = entered e)).
Proof.
  destruct (ttl c) as [t |] eqn:Httl; [| now left; right; left].
  destruct (Z_le_gt_dec t 0) as [Ht | Ht];
    [left; right; right; exists t; auto |].
  destruct (values c) as [| kv m] eqn:Hm; [now left; left |].
  destruct (Z_le_gt_dec (now - t) (oldest c)) as [Hold | Hold];
    [left; right; right; exists t; auto |].
  right. rewrite <- Hm.
  unfold ttl_pass. rewrite Httl.
  replace (negb (t =? 0) && (0 <? Map_size (values c)) && (0 <? t))
    with true.
  2:{ symmetry. rewrite !andb_true_iff, negb_true_iff.
      rewrite Z.eqb_neq, !Z.ltb_lt, Hm, Map_size_cons.
      pose proof (Map_size_nonneg m). lia. }
  replace (oldest c <? now - t) with true by (symmetry; apply Z.ltb_lt; lia).
  destruct (ttl_loop_spec (now - t) (oldest c) (values c))
    as (n & old' & Hn & Hloop & Hall & Hend).
  rewrite Hloop. cbn [values].
  assert (Hne : values c <> []) by (rewrite Hm; discriminate).
  destruct Hend as [[Hnil ->] | (k & e & rest & Hcons & He & ->)].
  - exists t, n, now'. rewrite Hnil.
    cbn [Map_size List.length Z.of_nat Z.eqb].
    unfold set_oldest. cbn. repeat split; auto; lia.
  - exists t, n, (entered e). rewrite Hcons.
    replace (Map_size ((k, e) :: rest) =? 0) with false.
    2:{ symmetry. apply Z.eqb_neq. rewrite Map_size_cons.
        pose proof (Map_size_nonneg rest). lia. }
    repeat split; auto; try lia.
    right. now exists k, e, rest.
Qed.

Lemma ttl_pass_spec_n (now now' : Z) (c : Cache) :
  exists (n : nat) (old' : Z),
    (n <= List.length (values c))%nat /\
    ttl_pass K_eq_dec now now' c
      = (Map_keys (firstn n (values c)),
         mkFlycacher (skipn n (values c)) (capacity c) (pruneAmount c)
           (ttl c) old').
Proof.
  destruct (ttl_pass_cases now now' c)
    as [Hidle | (t & n & old' & _ & _ & _ & _ & Hn & _ & Hpass & _)].
  - exists 0%nat, (oldest c). rewrite (ttl_pass_idle now now' c Hidle).
    simpl. split; [lia | now destruct c].
  - now exists n, old'.
Qed.

(** [prune] deletes the first [n] entries, in that order, and touches
    nothing but the map and the cursor. *)
Lemma prune_log_spec_n (now now' : Z) (c : Cache) :
  exists (n : nat) (old' : Z),
    (n <= List.length (values c))%nat /\
    prune_log K_eq_dec now now' c
      = (Map_keys (firstn n (values c)),
         mkFlycacher (skipn n (values c)) (capacity c) (pruneAmount c)
           (ttl c) old').
Proof.
  unfold prune_log.
  destruct (capacity_pass_spec_n c) as (n1 & Hn1 & ->).
  destruct (ttl_pass_spec_n now now' (set_values (skipn n1 (values c)) c))
    as (n2 & old' & Hn2 & ->).
  cbn [values set_values capacity pruneAmount ttl] in *.
  rewrite length_skipn in Hn2.
  exists (n1 + n2)%nat, old'. split; [lia |].
  rewrite firstn_plus, skipn_skipn.
  unfold Map_keys. rewrite map_app.
  now rewrite (Nat.add_comm n2 n1).
Qed.

Lemma prune_spec_n (now now' : Z) (c : Cache) :
  exists (n : nat) (old' : Z),
    (n <= List.length (values c))%nat /\
    prune K_eq_dec now now' c
      = mkFlycacher (skipn n (values c)) (capacity c) (pruneAmount c)
          (ttl c) old'.
Proof.
  destruct (prune_log_spec_n now now' c) as (n & old' & Hn & Hlog).
  exists n, old'. split; [exact Hn |].
  unfold prune. now rewrite Hlog.
Qed.
End PruneFacts.

Section PruneClaims.
Variables K V : Type.
Variable K_eq_dec : forall x y : K, {x = y} + {x <> y}.

Local Abbreviation Cache := (Flycacher K V).

(** The capacity pass under a valid configuration. *)
Lemma capacity_pass_valid (c : Cache) :
  0 <= pruneAmount c <= capacity c ->
  (Map_size (values c) <= capacity c -> capacity_pass K_eq_dec c = ([], c)) /\
  (capacity c < Map_size (values c) ->
   exists n : nat,
     (1 <= n <= List.length (values c))%nat /\
     capacity_pass K_eq_dec c
       = (Map_keys (firstn n (values c)),
          set_values (skipn n (values c)) c) /\
     Map_size (skipn n (values c)) <= capacity c - pruneAmount c /\
     forall j : nat,
       (j < n)%nat ->
       capacity c - pruneAmount c < Map_size (skipn j (values c))).
Proof.
  intros Hcfg. unfold capacity_pass. split; intros Hsize.
  - replace (capacity c <? Map_size (values c)) with false; [reflexivity |].
    symmetry. apply Z.ltb_ge. exact Hsize.
  - replace (capacity c <? Map_size (values c)) with true
      by (symmetry; apply Z.ltb_lt; exact Hsize).
    destruct (capacity_loop_spec K_eq_dec (capacity c) (pruneAmount c)
                (values c)) as (n & Hn & Hloop & Hone & Hend & Hmin).
    rewrite Hloop. exists n.
    assert (Hne : values c <> []).
    { intros Heq. rewrite Heq in Hsize. unfold Map_size in Hsize.
      simpl in Hsize. lia. }
    specialize (Hone Hne).
    repeat split; auto.
    + destruct Hend as [Hend | ->]; [exact Hend |].
      rewrite skipn_all. unfold Map_size. simpl. lia.
    + intros [| j] Hj; [simpl; lia |]. apply Hmin. lia.
Qed.

(** After the capacity pass the map is within capacity or empty. *)
Lemma capacity_pass_settled (c : Cache) :
  0 <= pruneAmount c ->
  let c1 := snd (capacity_pass K_eq_dec c) in
  Map_size (values c1) <= capacity c1 \/ values c1 = [].
Proof.
  intros Hamount. unfold capacity_pass.
  destruct (capacity c <? Map_size (values c)) eqn:Hover.
  - destruct (capacity_loop_spec K_eq_dec (capacity c) (pruneAmount c)
                (values c)) as (n & Hn & Hloop & _ & Hend & _).
    rewrite Hloop. cbn.
    destruct Hend as [Hend | ->]; [left; lia | right; apply skipn_all].
  - apply Z.ltb_ge in Hover. now left.
Qed.

Lemma capacity_pass_idle (c : Cache) :
  Map_size (values c) <= capacity c \/ values c = [] ->
  capacity_pass K_eq_dec c = ([], c).
Proof.
  intros Hidle. unfold capacity_pass.
  destruct (capacity c <? Map_size (values c)) eqn:Hover; [| reflexivity].
  apply Z.ltb_lt in Hover.
  destruct Hidle as [Hle | Hnil]; [lia |].
  rewrite Hnil. cbn. rewrite <- Hnil. now rewrite set_values_same.
Qed.

(** C7. Pruning removes entries strictly in insertion order: the keys
    that one call of [prune] deletes are, in the order of deletion, the
    first [n] keys of the map, and the entries that survive are exactly
    the ones inserted after them.  So no entry is ever removed while an
    entry inserted earlier is still in the map. *)
Theorem prune_removes_oldest_first (now now' : Z) (c : Cache) :
  exists n : nat,
    (n <= List.length (values c))%nat /\
    fst (prune_log K_eq_dec now now' c) = Map_keys (firstn n (values c)) /\
    values (prune K_eq_dec now now' c) = skipn n (values c).
Proof.
  destruct (prune_log_spec_n K_eq_dec now now' c) as (n & old' & Hn & Hlog).
  exists n. unfold prune. rewrite Hlog. now repeat split.
Qed.

(** C9. [prune] only removes entries: the map before the call is the
    removed entries followed by the map after the call, so nothing is
    added, no survivor changes its place among the survivors, and every
    entry found after the call was there before with the same value and
    timestamp.  The configuration is untouched. *)
Theorem prune_only_removes (now now' : Z) (c : Cache) :
  let c' := prune K_eq_dec now now' c in
  (exists removed, values c = removed ++ values c') /\
  (forall k e, In (k, e) (values c') -> In (k, e) (values c)) /\
  (NoDup (Map_keys (values c)) ->
   forall key e,
     Map_get K_eq_dec key (values c') = Some e ->
     Map_get K_eq_dec key (values c) = Some e) /\
  capacity c' = capacity c /\ pruneAmount c' = pruneAmount c /\
  ttl c' = ttl c.
Proof.
  destruct (prune_spec_n K_eq_dec now now' c) as (n & old' & Hn & Hprune).
  cbv zeta. rewrite Hprune. cbn [values capacity pruneAmount ttl].
  repeat split.
  - exists (firstn n (values c)). now rewrite firstn_skipn.
  - intros k e Hin. rewrite <- (firstn_skipn n (values c)).
    apply in_or_app. now right.
  - intros Hnd key e. now apply Map_get_skipn.
Qed.

(** C8. [prune] is idempotent: a second call that observes the same time
    leaves the state of the first call unchanged. *)
Theorem prune_idempotent (now now1 now2 : Z) (c : Cache) :
  0 <= pruneAmount c ->
  prune K_eq_dec now now2 (prune K_eq_dec now now1 c)
    = prune K_eq_dec now now1 c.
Proof.
  intros Hamount.
  pose proof (capacity_pass_settled c Hamount) as Hsettled.
  unfold prune at 2 3. unfold prune_log.
  destruct (capacity_pass_spec_n K_eq_dec c) as (n1 & Hn1 & Hcap).
  rewrite Hcap in *. cbn [snd] in Hsettled.
  set (c1 := set_values (skipn n1 (values c)) c) in *.
  assert (Hstable : forall c2 : Cache,
             values c2 = [] \/
             (exists n, values c2 = skipn n (values c1)) /\
             capacity c2 = capacity c1 /\
             (exists t, ttl c2 = Some t /\ now - t <= oldest c2) ->
             prune K_eq_dec now now2 c2 = c2).
  { intros c2 Hc2. unfold prune, prune_log.
    rewrite capacity_pass_idle.
    - rewrite ttl_pass_idle; [reflexivity |].
      destruct Hc2 as [Hnil | (_ & _ & t & Httl & Hold)]; [now left |].
      right; right. exists t. auto.
    - destruct Hc2 as [Hnil | ((n & Hn) & Hc & _)]; [now right |].
      destruct Hsettled as [Hle | Hnil].
      + left. rewrite Hn, Hc.
        pose proof (Map_size_skipn_le n (values c1)). lia.
      + right. rewrite Hn, Hnil. apply skipn_nil. }
  destruct (ttl_pass_cases K_eq_dec now now1 c1)
    as [Hidle | (t & n & old' & Httl & Ht & Hne & Hold & Hn & _ & Hpass
                 & Hend)].
  - rewrite (ttl_pass_idle K_eq_dec now now1 c1 Hidle). cbn [snd].
    unfold prune, prune_log.
    rewrite capacity_pass_idle.
    + now rewrite (ttl_pass_idle K_eq_dec now now2 c1 Hidle).
    + tauto.
  - rewrite Hpass. cbn [snd]. apply Hstable.
    cbn [values capacity ttl oldest].
    destruct Hend as [[Hnil _] | (k & e & rest & Hcons & He & ->)];
      [now left | right].
    repeat split; eauto.
Qed.
End PruneClaims.

(** Case split of a call of [get] along the lemma [get_cases] below: a
    hit, a miss that fails, a miss that succeeds.  The equation of the call
    is rewritten in the goal. *)
Ltac split_get_call H :=
  destruct H
    as [(hit & _ & ->) | [(_ & err & w1 & _ & ->) | (_ & v & w1 & _ & ->)]].

Section GetClaims.
Variables K V E W : Type.
Variable K_eq_dec : forall x y : K, {x = y} + {x <> y}.
Variable missCallback : K -> W -> (E + V) * W.

Local Abbreviation Cache := (Flycacher K V).
Local Abbreviation prune' := (prune K_eq_dec).
Local Abbreviation get' := (get K_eq_dec missCallback).
Local Abbreviation lookup := (Map_get K_eq_dec).

(** The three ways a call of [get] can go: a hit, a miss whose callback
    fails, a miss whose callback succeeds. *)
Lemma get_cases (key : K) (now now' now_set : Z) (c : Cache) (w : World K W) :
  let c1 := prune' now now' c in
  (exists hit,
      lookup key (values c1) = Some hit /\
      get' key now now' now_set c w = (inr (value hit), c1, w)) \/
  (lookup key (values c1) = None /\
   exists err w1,
     missCallback key (fst w) = (inl err, w1) /\
     get' key now now' now_set c w = (inl err, c1, (w1, snd w ++ [key]))) \/
  (lookup key (values c1) = None /\
   exists v w1,
     missCallback key (fst w) = (inr v, w1) /\
     get' key now now' now_set c w
       = (inr v,
          set_values (values c1 ++ [(key, mkEntry v now_set)]) c1,
          (w1, snd w ++ [key]))).
Proof.
  cbv zeta. unfold get, invoke.
  destruct (lookup key (values (prune' now now' c))) as [hit |] eqn:Hhit.
  - left. now exists hit.
  - right. destruct (missCallback key (fst w)) as [[err | v] w1] eqn:Hmiss.
    + left. split; [reflexivity |]. now exists err, w1.
    + right. split; [reflexivity |]. exists v, w1.
      now rewrite (Map_set_fresh K_eq_dec key _ _ Hhit).
Qed.

(** C10. Hit detection looks at the presence of the key only: whatever
    value the entry found by the lookup holds, [get] returns that value,
    and neither the cache beyond pruning nor the outside world nor the log
    of callback invocations changes. *)
Theorem hit_ignores_value
    (key : K) (now now' now_set : Z) (c : Cache) (w : World K W)
    (hit : Entry V) :
  lookup key (values (prune' now now' c)) = Some hit ->
  get' key now now' now_set c w = (inr (value hit), prune' now now' c, w).
Proof.
  intros Hhit. unfold get. now rewrite Hhit.
Qed.

(** C3, amended. When the miss callback fails during [get], the caller
    gets that failure, no entry is stored for the key, and the cache is
    left in the state the pruning at the start of the call produced. *)
Theorem failed_get_keeps_pruned_state
    (key : K) (now now' now_set : Z) (c : Cache) (w : World K W)
    (err : E) (w1 : W) :
  lookup key (values (prune' now now' c)) = None ->
  missCallback key (fst w) = (inl err, w1) ->
  get' key now now' now_set c w
    = (inl err, prune' now now' c, (w1, snd w ++ [key])) /\
  lookup key (values (prune' now now' c)) = None.
Proof.
  intros Hmiss Hfail. split; [| exact Hmiss].
  unfold get, invoke. now rewrite Hmiss, Hfail.
Qed.

Lemma In_Map_delete (key : K) (kv : K * Entry V) (m : JsMap K (Entry V)) :
  In kv (Map_delete K_eq_dec key m) -> In kv m.
Proof.
  induction m as [| [k y] m IH]; simpl; [tauto |].
  destruct (K_eq_dec key k); simpl; tauto.
Qed.

Lemma In_prune (now now' : Z) (c : Cache) (kv : K * Entry V) :
  In kv (values (prune' now now' c)) -> In kv (values c).
Proof.
  destruct (prune_spec_n K_eq_dec now now' c) as (n & old' & _ & ->).
  cbn [values]. intros Hin. rewrite <- (firstn_skipn n (values c)).
  apply in_or_app. now right.
Qed.

(** The cache that a step leaves holds entries of the cache before, and,
    after a [get], possibly a new entry for the key of the [get]. *)
Lemma In_step (o : op K) (s : Sys K V W) (kv : K * Entry V) :
  In kv (values (cache (step K_eq_dec missCallback o s))) ->
  In kv (values (cache s)) \/
  exists d1 d2 d3 v,
    o = OpGet (fst kv) d1 d2 d3 /\
    snd kv = mkEntry v (clock s + Z.of_N d1 + Z.of_N d2 + Z.of_N d3).
Proof.
  destruct o as [key d1 d2 d3 | d1 d2 | key |]; cbn [step].
  - set (now := clock s + Z.of_N d1).
    split_get_call
      (get_cases key now (now + Z.of_N d2)
                (now + Z.of_N d2 + Z.of_N d3) (cache s) (world s));
      cbn [cache values set_values]; intros Hin.
    + left. eapply In_prune, Hin.
    + left. eapply In_prune, Hin.
    + apply in_app_or in Hin as [Hin | [<- | []]].
      * left. eapply In_prune, Hin.
      * right. now exists d1, d2, d3, v.
  - cbn [cache]. intros Hin. left. eapply In_prune, Hin.
  - cbn [cache delete values set_values]. intros Hin. left.
    eapply In_Map_delete, Hin.
  - cbn. tauto.
Qed.

(** As long as no [get] asks for [key], every entry stored under [key]
    is one that was there from the start. *)
Lemma run_keeps_entry (key : K) (ops : list (op K)) (s : Sys K V W)
    (e : Entry V) :
  forallb (fun o => negb (is_get_of K_eq_dec key o)) ops = true ->
  In (key, e) (values (cache (run K_eq_dec missCallback ops s))) ->
  In (key, e) (values (cache s)).
Proof.
  revert s. induction ops as [| o ops IH]; intros s Hops Hin;
    [exact Hin |].
  cbn in Hops. apply andb_prop in Hops as [Ho Hops].
  apply (IH _ Hops) in Hin.
  apply In_step in Hin as [Hin | (d1 & d2 & d3 & v & -> & _)];
    [exact Hin |].
  cbn in Ho. destruct (K_eq_dec key key) as [_ | Hne];
    [discriminate | now elim Hne].
Qed.

(** C5. On a missing key [get] invokes the miss callback exactly once,
    appends the resolved value as the newest entry and returns it.  A
    later [get] of the same key, with no [get] of that key in between,
    returns the stored value without invoking the callback, provided its
    own pruning leaves the key in the map. *)
Theorem get_miss_then_hit
    (key : K) (now now' now_set : Z) (c : Cache) (w : World K W)
    (v : V) (w1 : W) :
  lookup key (values (prune' now now' c)) = None ->
  missCallback key (fst w) = (inr v, w1) ->
  let c1 :=
    set_values (values (prune' now now' c) ++ [(key, mkEntry v now_set)])
      (prune' now now' c) in
  let wl := (w1, snd w ++ [key]) in
  get' key now now' now_set c w = (inr v, c1, wl) /\
  forall (ops : list (op K)) (clk t t' t_set : Z),
    forallb (fun o => negb (is_get_of K_eq_dec key o)) ops = true ->
    let s := run K_eq_dec missCallback ops (mkSys c1 wl clk) in
    In key (Map_keys (values (prune' t t' (cache s)))) ->
    get' key t t' t_set (cache s) (world s)
      = (inr v, prune' t t' (cache s), world s).
Proof.
  intros Hmiss Hres c1 wl. split.
  - unfold get, invoke. rewrite Hmiss, Hres.
    now rewrite (Map_set_fresh K_eq_dec key _ _ Hmiss).
  - intros ops clk t t' t_set Hops s Hkey.
    destruct (lookup key (values (prune' t t' (cache s)))) as [hit |] eqn:Hhit.
    2:{ apply Map_get_None in Hhit. contradiction. }
    unfold get. rewrite Hhit.
    apply Map_get_In, In_prune in Hhit.
    apply (run_keeps_entry key ops _ hit Hops) in Hhit.
    cbn [cache values c1 set_values] in Hhit.
    apply in_app_or in Hhit as [Hold | [[= <-] | []]]; [| reflexivity].
    apply Map_get_None in Hmiss. elim Hmiss.
    change key with (fst (key, hit)). now apply in_map.
Qed.
End GetClaims.

Section SequenceClaims.
Variables K V E W : Type.
Variable K_eq_dec : forall x y : K, {x = y} + {x <> y}.
Variable missCallback : K -> W -> (E + V) * W.

Local Abbreviation Cache := (Flycacher K V).
Local Abbreviation Entries := (JsMap K (Entry V)).
Local Abbreviation prune' := (prune K_eq_dec).
Local Abbreviation step' := (step K_eq_dec missCallback).
Local Abbreviation run' := (run K_eq_dec missCallback).

Lemma prune_unfold (now now' : Z) (c : Cache) :
  prune' now now' c
    = snd (ttl_pass K_eq_dec now now' (snd (capacity_pass K_eq_dec c))).
Proof.
  unfold prune, prune_log.
  destruct (capacity_pass K_eq_dec c) as [log1 c1]. cbn [snd].
  now destruct (ttl_pass K_eq_dec now now' c1).
Qed.

(** *** The configuration never changes *)

Lemma prune_config (now now' : Z) (c : Cache) :
  capacity (prune' now now' c) = capacity c /\
  pruneAmount (prune' now now' c) = pruneAmount c /\
  ttl (prune' now now' c) = ttl c.
Proof.
  destruct (prune_spec_n K_eq_dec now now' c) as (n & old' & _ & ->).
  now cbn.
Qed.

Lemma step_config (o : op K) (s : Sys K V W) :
  capacity (cache (step' o s)) = capacity (cache s) /\
  pruneAmount (cache (step' o s)) = pruneAmount (cache s) /\
  ttl (cache (step' o s)) = ttl (cache s).
Proof.
  destruct o as [key d1 d2 d3 | d1 d2 | key |]; cbn [step].
  - set (now := clock s + Z.of_N d1).
    split_get_call
      (get_cases K_eq_dec missCallback key now (now + Z.of_N d2)
                (now + Z.of_N d2 + Z.of_N d3) (cache s) (world s));
      cbn [cache set_values capacity pruneAmount ttl];
      apply prune_config.
  - cbn [cache]. apply prune_config.
  - now cbn.
  - now cbn.
Qed.

Lemma run_config (ops : list (op K)) (s : Sys K V W) :
  capacity (cache (run' ops s)) = capacity (cache s) /\
  pruneAmount (cache (run' ops s)) = pruneAmount (cache s) /\
  ttl (cache (run' ops s)) = ttl (cache s).
Proof.
  revert s. induction ops as [| o ops IH]; intros s; [now cbn |].
  cbn [run fold_left]. fold (run' ops (step' o s)).
  destruct (IH (step' o s)) as (-> & -> & ->). apply step_config.
Qed.

(** *** The size of the map *)

Lemma prune_size (now now' : Z) (c : Cache) :
  0 <= capacity c ->
  Map_size (values c) <= capacity c + 1 ->
  Map_size (values (prune' now now' c)) <= capacity c.
Proof.
  intros Hcap Hsize. rewrite prune_unfold.
  set (c1 := snd (capacity_pass K_eq_dec c)).
  assert (Hc1 : Map_size (values c1) <= capacity c).
  { subst c1. unfold capacity_pass.
    destruct (capacity c <? Map_size (values c)) eqn:Hover.
    - apply Z.ltb_lt in Hover.
      destruct (capacity_loop_spec K_eq_dec (capacity c) (pruneAmount c)
                  (values c)) as (n & Hn & Hloop & Hone & _).
      rewrite Hloop. cbn [snd values set_values].
      rewrite Map_size_skipn by exact Hn.
      assert (Hne : values c <> []).
      { intros Heq. rewrite Heq in Hover. unfold Map_size in Hover.
        simpl in Hover. lia. }
      specialize (Hone Hne). lia.
    - apply Z.ltb_ge in Hover. exact Hover. }
  destruct (ttl_pass_spec_n K_eq_dec now now' c1) as (n & old' & _ & ->).
  cbn [snd values]. pose proof (Map_size_skipn_le n (values c1)). lia.
Qed.

Lemma Map_size_delete (key : K) (m : Entries) :
  Map_size (Map_delete K_eq_dec key m) <= Map_size m.
Proof.
  induction m as [| [k y] m IH]; simpl; [lia |].
  destruct (K_eq_dec key k); rewrite !Map_size_cons; lia.
Qed.

Lemma Map_size_snoc (kv : K * Entry V) (m : Entries) :
  Map_size (m ++ [kv]) = Map_size m + 1.
Proof. unfold Map_size. rewrite length_app. simpl. lia. Qed.

(** After a [get] the map holds at most one entry more than [capacity]. *)
Lemma get_size (key : K) (now now' now_set : Z) (c : Cache) (w : World K W) :
  0 <= capacity c ->
  Map_size (values c) <= capacity c + 1 ->
  Map_size
    (values (snd (fst (get K_eq_dec missCallback key now now' now_set c w))))
    <= capacity c + 1.
Proof.
  intros Hcap Hsize.
  pose proof (prune_size now now' c Hcap Hsize) as Hpruned.
  split_get_call
    (get_cases K_eq_dec missCallback key now now' now_set c w);
    cbn [fst snd values set_values]; [lia | lia |].
  rewrite Map_size_snoc. lia.
Qed.

Lemma step_size (o : op K) (s : Sys K V W) :
  0 <= capacity (cache s) ->
  Map_size (values (cache s)) <= capacity (cache s) + 1 ->
  Map_size (values (cache (step' o s))) <= capacity (cache s) + 1.
Proof.
  intros Hcap Hsize.
  destruct o as [key d1 d2 d3 | d1 d2 | key |]; cbn [step].
  - set (now := clock s + Z.of_N d1).
    pose proof (get_size key now (now + Z.of_N d2)
                  (now + Z.of_N d2 + Z.of_N d3) (cache s) (world s)
                  Hcap Hsize) as Hget.
    destruct (get K_eq_dec missCallback key now (now + Z.of_N d2)
                (now + Z.of_N d2 + Z.of_N d3) (cache s) (world s))
      as [[r c'] w']. exact Hget.
  - cbn [cache].
    pose proof (prune_size (clock s + Z.of_N d1)
                  (clock s + Z.of_N d1 + Z.of_N d2) (cache s) Hcap Hsize).
    lia.
  - cbn [cache delete values set_values].
    pose proof (Map_size_delete key (values (cache s))). lia.
  - cbn. lia.
Qed.

Lemma run_size (ops : list (op K)) (s : Sys K V W) :
  0 <= capacity (cache s) ->
  Map_size (values (cache s)) <= capacity (cache s) + 1 ->
  Map_size (values (cache (run' ops s))) <= capacity (cache s) + 1.
Proof.
  revert s. induction ops as [| o ops IH]; intros s Hcap Hsize;
    [exact Hsize |].
  cbn [run fold_left]. fold (run' ops (step' o s)).
  destruct (step_config o s) as (Hc & _).
  rewrite <- Hc. apply IH; rewrite Hc; [exact Hcap |].
  now apply step_size.
Qed.

(** For calls made one after the other from construction on, a
    capacity that is not negative is enough for the bounds. *)
Lemma size_bound_sequential
    (t0 : Z) (options : FlycacherOptions) (w0 : W) (ops : list (op K)) :
  0 <= opt_capacity options ->
  let s := run' ops (boot K V t0 options w0) in
  (forall d1 d2 : N,
      Map_size (values (cache (step' (OpPrune K d1 d2) s)))
        <= opt_capacity options) /\
  (forall (key : K) (d1 d2 d3 : N),
      Map_size (values (cache (step' (OpGet key d1 d2 d3) s)))
        <= opt_capacity options + 1).
Proof.
  intros Hcap s.
  assert (Hcfg : capacity (cache s) = opt_capacity options).
  { subst s. now rewrite (proj1 (run_config ops _)). }
  assert (Hsize : Map_size (values (cache s)) <= capacity (cache s) + 1).
  { subst s. rewrite (proj1 (run_config ops _)).
    apply run_size; cbn; lia. }
  split.
  - intros d1 d2. cbn [step cache]. rewrite <- Hcfg.
    apply prune_size; [lia | exact Hsize].
  - intros key d1 d2 d3. rewrite <- Hcfg.
    apply step_size; [lia | exact Hsize].
Qed.

(** In any state, [prune] brings the map within capacity. *)
Lemma prune_within_capacity (now now' : Z) (c : Cache) :
  0 <= capacity c -> 0 <= pruneAmount c ->
  Map_size (values (prune' now now' c)) <= capacity c.
Proof.
  intros Hcap Hamount. rewrite prune_unfold.
  pose proof (capacity_pass_settled K_eq_dec c Hamount) as Hsettled.
  destruct (capacity_pass_spec_n K_eq_dec c) as (n1 & _ & Hpass).
  rewrite Hpass in *. cbn [snd values capacity set_values] in *.
  set (c1 := set_values (skipn n1 (values c)) c).
  destruct (ttl_pass_spec_n K_eq_dec now now' c1) as (n & old' & _ & ->).
  cbn [snd values]. subst c1. cbn [values set_values].
  pose proof (Map_size_skipn_le n (skipn n1 (values c))) as Hle.
  destruct Hsettled as [Hsize | Hnil]; [lia |].
  rewrite Hnil, skipn_nil. cbn. lia.
Qed.

Lemma Map_size_set (key : K) (e : Entry V) (m : Entries) :
  Map_size (Map_set K_eq_dec key e m) <= Map_size m + 1.
Proof.
  induction m as [| [k y] m IH]; cbn [Map_set].
  - rewrite Map_size_cons. lia.
  - destruct (K_eq_dec key k); rewrite !Map_size_cons; lia.
Qed.

(** C1, amended. Under a configuration with [0 <= capacity] and
    [0 <= pruneAmount], in whatever state the cache is: the map holds at
    most [capacity] entries when a call of [prune] returns; it holds at
    most [capacity + 1] entries when a call of [get] returns during whose
    await no other call ran; and a [get] that resumes after other calls
    ran adds at most one entry to the map it finds, without pruning. *)
Theorem size_bound_after_call (c : Cache) :
  0 <= capacity c -> 0 <= pruneAmount c ->
  (forall now now' : Z,
      Map_size (values (prune' now now' c)) <= capacity c) /\
  (forall (key : K) (now now' now_set : Z) (w : World K W),
      Map_size
        (values
           (snd (fst (get K_eq_dec missCallback key now now' now_set c w))))
        <= capacity c + 1) /\
  (forall (key : K) (v : V) (now_set : Z),
      Map_size (values (get_resume K_eq_dec key v now_set c))
        <= Map_size (values c) + 1).
Proof.
  intros Hcap Hamount. repeat split.
  - intros now now'. now apply prune_within_capacity.
  - intros key now now' now_set w.
    pose proof (prune_within_capacity now now' c Hcap Hamount) as Hpruned.
    split_get_call
      (get_cases K_eq_dec missCallback key now now' now_set c w);
      cbn [fst snd values set_values]; [lia | lia |].
    rewrite Map_size_snoc. lia.
  - intros key v now_set. cbn [get_resume values set_values].
    apply Map_size_set.
Qed.
End SequenceClaims.

Section TimeClaims.
Variables K V E W : Type.
Variable K_eq_dec : forall x y : K, {x = y} + {x <> y}.
Variable missCallback : K -> W -> (E + V) * W.

Local Abbreviation Cache := (Flycacher K V).
Local Abbreviation Entries := (JsMap K (Entry V)).
Local Abbreviation prune' := (prune K_eq_dec).
Local Abbreviation step' := (step K_eq_dec missCallback).
Local Abbreviation run' := (run K_eq_dec missCallback).

Lemma Forall_skipn_entries (P : K * Entry V -> Prop) (n : nat) (m : Entries) :
  Forall P m -> Forall P (skipn n m).
Proof.
  intros Hall. rewrite <- (firstn_skipn n m) in Hall.
  now apply Forall_app in Hall.
Qed.

Lemma Forall_Map_delete (P : K * Entry V -> Prop) (key : K) (m : Entries) :
  Forall P m -> Forall P (Map_delete K_eq_dec key m).
Proof.
  induction 1 as [| [k y] m Hkv Hall IH]; simpl; [constructor |].
  destruct (K_eq_dec key k); [exact Hall | now constructor].
Qed.

Lemma by_age_skipn (n : nat) (m : Entries) : by_age m -> by_age (skipn n m).
Proof.
  revert m. induction n as [| n IH]; intros [| kv m] Hs; simpl; auto.
  apply IH. now inversion Hs.
Qed.

Lemma by_age_delete (key : K) (m : Entries) :
  by_age m -> by_age (Map_delete K_eq_dec key m).
Proof.
  induction 1 as [| [k y] m Hs IH Hall]; simpl; [constructor |].
  destruct (K_eq_dec key k); [exact Hs |].
  constructor; [exact IH | now apply Forall_Map_delete].
Qed.

Lemma by_age_snoc (k : K) (e : Entry V) (m : Entries) :
  by_age m ->
  Forall (fun kv => entered (snd kv) <= entered e) m ->
  by_age (m ++ [(k, e)]).
Proof.
  induction 1 as [| kv m Hs IH Hall]; intros Hle; simpl.
  - constructor; constructor.
  - inversion Hle as [| ? ? Hkv Hle']; subst.
    constructor; [now apply IH |].
    apply Forall_app. split; [exact Hall | now constructor].
Qed.

Lemma time_inv_later (c : Cache) (w w' : World K W) (t t' : Z) :
  t <= t' -> time_inv (mkSys c w t) -> time_inv (mkSys c w' t').
Proof.
  intros Ht [Hs Hold Hpast Hop]. cbn in *.
  constructor; cbn; auto; [| lia].
  eapply Forall_impl; [| exact Hpast]. cbn. intros kv Hkv. lia.
Qed.

(** Sortedness and the bound on the cursor survive the capacity pass. *)
Lemma capacity_pass_time (c : Cache) :
  by_age (values c) ->
  Forall (fun kv => oldest c <= entered (snd kv)) (values c) ->
  let c1 := snd (capacity_pass K_eq_dec c) in
  by_age (values c1) /\
  Forall (fun kv => oldest c1 <= entered (snd kv)) (values c1) /\
  oldest c1 = oldest c /\ ttl c1 = ttl c /\
  exists n, values c1 = skipn n (values c).
Proof.
  intros Hs Hold.
  destruct (capacity_pass_spec_n K_eq_dec c) as (n & _ & ->).
  cbn. repeat split.
  - now apply by_age_skipn.
  - now apply Forall_skipn_entries.
  - now exists n.
Qed.

(** After [prune], sortedness and the bound on the cursor still hold, the
    cursor is not in the future, and with a positive ttl no expired entry
    is left. *)
Lemma prune_time (now now' : Z) (c : Cache) :
  by_age (values c) ->
  Forall (fun kv => oldest c <= entered (snd kv)) (values c) ->
  let c' := prune' now now' c in
  by_age (values c') /\
  Forall (fun kv => oldest c' <= entered (snd kv)) (values c') /\
  (forall clk,
      Forall (fun kv => entered (snd kv) <= clk) (values c) ->
      oldest c <= clk -> clk <= now' -> oldest c' <= now') /\
  (forall t,
      ttl c = Some t -> 0 < t ->
      Forall (fun kv => now - t <= entered (snd kv)) (values c')).
Proof.
  intros Hs Hold. cbv zeta. rewrite prune_unfold.
  destruct (capacity_pass_time c Hs Hold)
    as (Hs1 & Hold1 & Hsame & Httl1 & n1 & Hn1).
  set (c1 := snd (capacity_pass K_eq_dec c)) in *.
  destruct (ttl_pass_cases K_eq_dec now now' c1)
    as [Hidle | (t & n & old' & Httl & Ht & Hne & Hcur & Hn & _ & Hpass
                 & Hend)].
  - rewrite (ttl_pass_idle K_eq_dec now now' c1 Hidle). cbn [snd].
    repeat split; auto.
    + intros clk _ Hclk Hnow. lia.
    + intros t Httl Ht. rewrite <- Httl1 in Httl.
      destruct Hidle as [Hnil | [Hnone | (t' & Ht' & Hcase)]].
      * rewrite Hnil. constructor.
      * congruence.
      * assert (t' = t) by congruence. subst t'.
        destruct Hcase as [Hneg | Hcur]; [lia |].
        eapply Forall_impl; [| exact Hold1]. cbn. intros kv Hkv. lia.
  - rewrite Hpass. cbn [snd values oldest].
    assert (Hs' : by_age (skipn n (values c1))) by now apply by_age_skipn.
    destruct Hend as [[Hnil ->] | (k & e & rest & Hcons & He & ->)].
    + rewrite Hnil. repeat split; auto; try constructor.
      intros clk _ _ _. lia.
    + rewrite Hcons in *.
      assert (Hrest : Forall (fun kv => entered e <= entered (snd kv))
                        ((k, e) :: rest)).
      { inversion Hs' as [| ? ? _ Hall]; subst.
        constructor; [cbn; lia | exact Hall]. }
      repeat split; auto.
      * intros clk Hpast _ Hclk.
        assert (Hin : In (k, e) (values c)).
        { rewrite <- (firstn_skipn n1 (values c)), <- Hn1.
          rewrite <- (firstn_skipn n (values c1)), Hcons.
          apply in_or_app. right. apply in_or_app. right. now left. }
        rewrite Forall_forall in Hpast. specialize (Hpast _ Hin).
        cbn in Hpast. lia.
      * intros t' Httl' Ht'. rewrite <- Httl1 in Httl'.
        assert (t' = t) by congruence. subst t'.
        eapply Forall_impl; [| exact Hrest]. cbn. intros kv Hkv. lia.
Qed.

Lemma prune_time_inv (now now' : Z) (s : Sys K V W) :
  time_inv s -> clock s <= now -> now <= now' ->
  time_inv (mkSys (prune' now now' (cache s)) (world s) now').
Proof.
  intros [Hs Hold Hpast Hop] Hnow Hnow'.
  destruct (prune_time now now' (cache s) Hs Hold) as (Hs' & Hold' & Hcur & _).
  constructor; cbn [cache clock]; auto.
  - apply Forall_forall. intros kv Hin.
    apply (In_prune K_eq_dec) in Hin.
    rewrite Forall_forall in Hpast. specialize (Hpast _ Hin). cbn in Hpast.
    lia.
  - apply (Hcur (clock s)); auto. lia.
Qed.

Lemma step_time_inv (o : op K) (s : Sys K V W) :
  time_inv s -> time_inv (step' o s).
Proof.
  intros Hinv.
  destruct o as [key d1 d2 d3 | d1 d2 | key |]; cbn [step].
  - set (now := clock s + Z.of_N d1).
    set (now' := now + Z.of_N d2).
    set (now_set := now' + Z.of_N d3).
    assert (Hpruned : time_inv (mkSys (prune' now now' (cache s))
                                  (world s) now'))
      by (apply prune_time_inv; [exact Hinv | lia | lia]).
    split_get_call
      (get_cases K_eq_dec missCallback key now now' now_set
         (cache s) (world s)).
    + eapply time_inv_later; [| exact Hpruned]. lia.
    + eapply time_inv_later; [| exact Hpruned]. lia.
    + destruct Hpruned as [Hs Hold Hpast Hop]. cbn [cache clock] in *.
      constructor; cbn [cache clock values oldest set_values].
      * apply by_age_snoc; [exact Hs |].
        eapply Forall_impl; [| exact Hpast]. cbn. intros kv Hkv. lia.
      * apply Forall_app. split; [exact Hold |].
        constructor; [cbn; lia | constructor].
      * apply Forall_app. split.
        -- eapply Forall_impl; [| exact Hpast]. cbn. intros kv Hkv. lia.
        -- constructor; [cbn; lia | constructor].
      * lia.
  - apply prune_time_inv; [exact Hinv | lia | lia].
  - destruct Hinv as [Hs Hold Hpast Hop].
    constructor; cbn [cache clock delete values oldest set_values]; auto.
    + now apply by_age_delete.
    + now apply Forall_Map_delete.
    + now apply Forall_Map_delete.
  - destruct Hinv as [Hs Hold Hpast Hop].
    constructor; cbn; auto; constructor.
Qed.

Lemma run_time_inv (ops : list (op K)) (s : Sys K V W) :
  time_inv s -> time_inv (run' ops s).
Proof.
  revert s. induction ops as [| o ops IH]; intros s Hinv; [exact Hinv |].
  cbn [run fold_left]. apply IH. now apply step_time_inv.
Qed.

Lemma boot_time_inv (t0 : Z) (options : FlycacherOptions) (w0 : W) :
  time_inv (boot K V t0 options w0).
Proof. constructor; cbn; try constructor. lia. Qed.

(** C6, amended. The cursor [oldest] is a lower bound when calls are
    made one after the other (no call runs while a [get] awaits the miss
    callback) and the clock never runs backwards: from construction on,
    after every call of [get], [delete], [clear] and [prune], [oldest] is
    not newer than the timestamp of any entry in the map, the oldest one
    included. *)
Theorem oldest_lower_bound
    (t0 : Z) (options : FlycacherOptions) (w0 : W) (ops : list (op K)) :
  let s := run' ops (boot K V t0 options w0) in
  Forall (fun kv => oldest (cache s) <= entered (snd kv)) (values (cache s)).
Proof.
  cbv zeta. apply inv_oldest, run_time_inv, boot_time_inv.
Qed.

(** For calls made one after the other, with a ttl [T > 0]: once a call
    of [get] or [prune] made at time [now] returns, every entry in the map
    has [now <= entered + T]. *)
Lemma entries_after_call_are_live
    (t0 : Z) (options : FlycacherOptions) (w0 : W) (ops : list (op K))
    (T : Z) :
  opt_ttl options = Some T -> 0 < T ->
  let s := run' ops (boot K V t0 options w0) in
  (forall (d1 d2 : N) (k : K) (e : Entry V),
      In (k, e) (values (cache (step' (OpPrune K d1 d2) s))) ->
      clock s + Z.of_N d1 <= entered e + T) /\
  (forall (key : K) (d1 d2 d3 : N) (k : K) (e : Entry V),
      In (k, e) (values (cache (step' (OpGet key d1 d2 d3) s))) ->
      clock s + Z.of_N d1 <= entered e + T).
Proof.
  intros Hopt HT s.
  assert (Hinv : time_inv s) by apply run_time_inv, boot_time_inv.
  assert (Httl : ttl (cache s) = Some T).
  { subst s.
    destruct (run_config K_eq_dec missCallback ops (boot K V t0 options w0))
      as (_ & _ & ->).
    cbn. rewrite Hopt.
    replace (T =? 0) with false; [reflexivity |].
    symmetry. apply Z.eqb_neq. lia. }
  assert (Hfresh : forall now now' k e,
             In (k, e) (values (prune' now now' (cache s))) ->
             now <= entered e + T).
  { intros now now' k e Hin.
    destruct (prune_time now now' (cache s) (inv_sorted Hinv)
                (inv_oldest Hinv)) as (_ & _ & _ & Httl').
    specialize (Httl' T Httl HT). rewrite Forall_forall in Httl'.
    specialize (Httl' _ Hin). cbn in Httl'. lia. }
  split.
  - intros d1 d2 k e. cbn [step cache]. apply Hfresh.
  - intros key d1 d2 d3 k e. cbn [step].
    set (now := clock s + Z.of_N d1).
    split_get_call
      (get_cases K_eq_dec missCallback key now (now + Z.of_N d2)
                (now + Z.of_N d2 + Z.of_N d3) (cache s) (world s));
      cbn [cache values set_values]; intros Hin.
    + eapply Hfresh, Hin.
    + eapply Hfresh, Hin.
    + apply in_app_or in Hin as [Hin | [[= _ <-] | []]].
      * eapply Hfresh, Hin.
      * cbn. lia.
Qed.

(** C2, amended. With a ttl [T > 0], a clock that never runs backwards
    and calls made one after the other (no call runs while a [get] awaits
    the miss callback), an entry inserted at [t0] is absent from the map
    after any call of [prune] or [get] made at a time later than
    [t0 + T]. *)
Theorem ttl_expiry_after_call
    (t0 : Z) (options : FlycacherOptions) (w0 : W) (ops : list (op K))
    (T : Z) :
  opt_ttl options = Some T -> 0 < T ->
  let s := run' ops (boot K V t0 options w0) in
  (forall (d1 d2 : N) (k : K) (e : Entry V),
      entered e + T < clock s + Z.of_N d1 ->
      ~ In (k, e) (values (cache (step' (OpPrune K d1 d2) s)))) /\
  (forall (key : K) (d1 d2 d3 : N) (k : K) (e : Entry V),
      entered e + T < clock s + Z.of_N d1 ->
      ~ In (k, e) (values (cache (step' (OpGet key d1 d2 d3) s)))).
Proof.
  intros Hopt HT s.
  destruct (entries_after_call_are_live t0 options w0 ops Hopt HT)
    as [Hprune Hget].
  fold s in Hprune, Hget.
  split.
  - intros d1 d2 k e Hlate Hin. specialize (Hprune d1 d2 k e Hin). lia.
  - intros key d1 d2 d3 k e Hlate Hin.
    specialize (Hget key d1 d2 d3 k e Hin). lia.
Qed.
End TimeClaims.

(** * The claims on concrete caches *)

(** C4. The capacity pass runs exactly when the size exceeds [capacity];
    it then deletes the entries one at a time from the oldest on, and stops
    as soon as the size is at most [capacity - pruneAmount] (under a valid
    configuration, [0 <= pruneAmount <= capacity]).  With capacity 3,
    prune 2 and the entries a, b, c, d it deletes a, b, c in that order and
    leaves d. *)
Theorem capacity_pass_spec :
  (forall (K V : Type) (K_eq_dec : forall x y : K, {x = y} + {x <> y})
          (c : Flycacher K V),
      0 <= pruneAmount c <= capacity c ->
      (Map_size (values c) <= capacity c ->
       capacity_pass K_eq_dec c = ([], c)) /\
      (capacity c < Map_size (values c) ->
       exists n : nat,
         (1 <= n <= List.length (values c))%nat /\
         capacity_pass K_eq_dec c
           = (Map_keys (firstn n (values c)),
              set_values (skipn n (values c)) c) /\
         Map_size (skipn n (values c)) <= capacity c - pruneAmount c /\
         forall j : nat,
           (j < n)%nat ->
           capacity c - pruneAmount c < Map_size (skipn j (values c)))) /\
  capacity_pass string_dec sample_abcd
    = (["a"; "b"; "c"], set_values [("d", mkEntry 1 0)] sample_abcd).
Proof.
  split; [| reflexivity].
  intros K V K_eq_dec c Hcfg. now apply capacity_pass_valid.
Qed.

Lemma capacity_pass_spec_witness :
  0 <= pruneAmount sample_abcd <= capacity sample_abcd /\
  exists n : nat,
    capacity_pass string_dec sample_abcd
      = (Map_keys (firstn n (values sample_abcd)),
         set_values (skipn n (values sample_abcd)) sample_abcd).
Proof.
  assert (Hcfg : 0 <= pruneAmount sample_abcd <= capacity sample_abcd)
    by (cbn; lia).
  split; [exact Hcfg |].
  destruct (proj1 capacity_pass_spec string Z string_dec sample_abcd Hcfg)
    as [_ Hover].
  destruct Hover as (n & _ & Hpass & _); [cbn; lia |].
  now exists n.
Defined.

(** C1 fails for [get]: in a cache of capacity 3 the fourth miss leaves
    four entries. *)
Lemma size_after_get_counterexample :
  ~ Map_size (values (cache sample_full)) <= capacity (cache sample_full).
Proof. cbn. lia. Qed.

Lemma size_bound_after_call_witness :
  Map_size (values (prune string_dec 0 0 (cache sample_full)))
    <= capacity (cache sample_full).
Proof.
  assert (Hcap : 0 <= capacity (cache sample_full)) by (cbn; lia).
  assert (Hamount : 0 <= pruneAmount (cache sample_full)) by (cbn; lia).
  exact (proj1
           (size_bound_after_call string_dec sample_miss (cache sample_full)
              Hcap Hamount) 0 0).
Defined.

(** C2 fails on the boundary: with ttl 1000 the entry inserted at time 0
    is still in the map after a [prune] and after a [get] called at time
    1000, which is not earlier than 0 + 1000. *)
Lemma ttl_boundary_counterexample :
  values (cache sample_x) = [("x", mkEntry 1 0)] /\
  ttl (cache sample_x) = Some 1000 /\
  entered (mkEntry 1 0) + 1000 <= clock sample_x + Z.of_N 1000 /\
  In ("x", mkEntry 1 0)
    (values (cache (sample_run [OpPrune string 1000 0] sample_x))) /\
  In ("x", mkEntry 1 0)
    (values (cache (sample_run [OpGet "y" 1000 0 0] sample_x))).
Proof. cbn. repeat split; auto; lia. Qed.

Lemma ttl_expiry_after_call_witness :
  opt_ttl sample_ttl_options = Some 1000 /\ 0 < 1000 /\
  In ("x", mkEntry 1 0) (values (cache sample_x)) /\
  ~ In ("x", mkEntry 1 0)
      (values (cache (sample_run [OpPrune string 1001 0] sample_x))).
Proof.
  assert (Httl : opt_ttl sample_ttl_options = Some 1000) by reflexivity.
  assert (HT : 0 < 1000) by lia.
  split; [exact Httl |]. split; [exact HT |].
  split; [cbn; now left |].
  apply (proj1
           (ttl_expiry_after_call string_dec sample_miss 0 sample_ttl_options
              0%nat [sample_get "x"] Httl HT) 1001%N 0%N).
  cbn. lia.
Defined.

(** C3 fails when the pruning at the start of the failing [get] has work
    to do: the callback rejects, and the entries a, b, c are gone. *)
Lemma failed_get_counterexample :
  fst (fst (get string_dec sample_miss "boom" 0 0 0
              (cache sample_full) (world sample_full)))
    = inl "rejected" /\
  values (cache sample_full)
    = [("a", mkEntry 1 0); ("b", mkEntry 1 0); ("c", mkEntry 1 0);
       ("d", mkEntry 1 0)] /\
  values (snd (fst (get string_dec sample_miss "boom" 0 0 0
                      (cache sample_full) (world sample_full))))
    = [("d", mkEntry 1 0)] /\
  snd (fst (get string_dec sample_miss "boom" 0 0 0
              (cache sample_full) (world sample_full)))
    <> cache sample_full.
Proof. cbn. repeat split; auto. discriminate. Qed.

Lemma failed_get_keeps_pruned_state_witness :
  get string_dec sample_miss "boom" 0 0 0 sample_abcd (0%nat, [])
    = (inl "rejected", prune string_dec 0 0 sample_abcd, (1%nat, ["boom"])) /\
  Map_get string_dec "boom" (values (prune string_dec 0 0 sample_abcd)) = None.
Proof.
  apply (failed_get_keeps_pruned_state string_dec sample_miss "boom" 0 0 0
           sample_abcd (0%nat, [])); reflexivity.
Defined.

Lemma get_miss_then_hit_witness :
  get string_dec sample_miss "a" 0 0 5
      (new_Flycacher string Z 0 sample_options) (0%nat, [])
    = (inr 1,
       mkFlycacher [("a", mkEntry 1 5)] 3 2 None 0,
       (1%nat, ["a"])) /\
  get string_dec sample_miss "a" 9 9 9
      (mkFlycacher [("a", mkEntry 1 5)] 3 2 None 0) (1%nat, ["a"])
    = (inr 1,
       mkFlycacher [("a", mkEntry 1 5)] 3 2 None 0,
       (1%nat, ["a"])).
Proof.
  assert (Hmiss : Map_get string_dec "a"
                    (values (prune string_dec 0 0
                               (new_Flycacher string Z 0 sample_options)))
                  = None) by reflexivity.
  assert (Hres : sample_miss "a" (fst (0%nat, @nil string)) = (inr 1, 1%nat))
    by reflexivity.
  destruct (get_miss_then_hit string_dec sample_miss "a" 0 0 5
              (new_Flycacher string Z 0 sample_options) (0%nat, [])
              Hmiss Hres) as [Hfirst Hlater].
  split; [exact Hfirst |].
  apply (Hlater [] 5 9 9 9); [reflexivity | cbn; now left].
Defined.

Lemma prune_idempotent_witness :
  prune string_dec 7 7 (prune string_dec 7 7 sample_abcd)
    = prune string_dec 7 7 sample_abcd.
Proof.
  apply (prune_idempotent string_dec 7 7 7 sample_abcd). cbn. lia.
Defined.

Lemma prune_only_removes_witness :
  exists removed,
    values sample_abcd = removed ++ values (prune string_dec 0 0 sample_abcd).
Proof.
  exact (proj1 (prune_only_removes string_dec 0 0 sample_abcd)).
Defined.

(** A hit on each of the five falsy values: the stored value comes back and
    the rejecting callback is not invoked. *)
Lemma hit_ignores_value_witness :
  Forall
    (fun kv =>
       ToBoolean (value (snd kv)) = false /\
       get string_dec rejecting_miss (fst kv) 0 0 0 sample_falsy (0%nat, [])
         = (inr (value (snd kv)), prune string_dec 0 0 sample_falsy,
            (0%nat, [])))
    (values sample_falsy).
Proof.
  apply Forall_forall. intros [k e] Hin. split.
  - cbn in Hin.
    destruct Hin as [[= <- <-] | [[= <- <-] | [[= <- <-] | [[= <- <-] |
                    [[= <- <-] | []]]]]]; reflexivity.
  - apply (hit_ignores_value string_dec rejecting_miss).
    apply In_Map_get; [| exact Hin].
    cbn. repeat constructor; cbn; intuition discriminate.
Defined.

(** * Further properties of the class *)

Section Invariants.
Variables K V E W : Type.
Variable K_eq_dec : forall x y : K, {x = y} + {x <> y}.
Variable missCallback : K -> W -> (E + V) * W.

Local Abbreviation Cache := (Flycacher K V).
Local Abbreviation Entries := (JsMap K (Entry V)).
Local Abbreviation prune' := (prune K_eq_dec).
Local Abbreviation step' := (step K_eq_dec missCallback).
Local Abbreviation run' := (run K_eq_dec missCallback).

Lemma NoDup_keys_skipn (n : nat) (m : Entries) :
  NoDup (Map_keys m) -> NoDup (Map_keys (skipn n m)).
Proof.
  revert m. induction n as [| n IH]; intros [| kv m] Hnd; simpl; auto.
  apply IH. now inversion Hnd.
Qed.

Lemma NoDup_keys_snoc (key : K) (e : Entry V) (m : Entries) :
  NoDup (Map_keys m) -> Map_get K_eq_dec key m = None ->
  NoDup (Map_keys (m ++ [(key, e)])).
Proof.
  intros Hnd Hmiss. apply Map_get_None in Hmiss.
  unfold Map_keys in *. rewrite map_app. cbn [map fst].
  apply NoDup_app; [exact Hnd | repeat constructor; intros [] |].
  intros k Hk [<- | []]. contradiction.
Qed.

Lemma prune_nodup (now now' : Z) (c : Cache) :
  NoDup (Map_keys (values c)) -> NoDup (Map_keys (values (prune' now now' c))).
Proof.
  intros Hnd.
  destruct (prune_spec_n K_eq_dec now now' c) as (n & old' & _ & ->).
  cbn [values]. now apply NoDup_keys_skipn.
Qed.

Lemma step_nodup (o : op K) (s : Sys K V W) :
  NoDup (Map_keys (values (cache s))) ->
  NoDup (Map_keys (values (cache (step' o s)))).
Proof.
  intros Hnd.
  destruct o as [key d1 d2 d3 | d1 d2 | key |]; cbn [step].
  - set (now := clock s + Z.of_N d1).
    pose proof (prune_nodup now (now + Z.of_N d2) (cache s) Hnd) as Hpruned.
    destruct (get_cases K_eq_dec missCallback key now (now + Z.of_N d2)
                (now + Z.of_N d2 + Z.of_N d3) (cache s) (world s))
      as [(hit & _ & ->) | [(_ & err & w1 & _ & ->)
                           | (Hmiss & v & w1 & _ & ->)]];
      cbn [cache values set_values]; auto.
    now apply NoDup_keys_snoc.
  - cbn [cache]. now apply prune_nodup.
  - cbn [cache delete values set_values]. now apply NoDup_Map_delete.
  - cbn. constructor.
Qed.

Lemma run_nodup (ops : list (op K)) (s : Sys K V W) :
  NoDup (Map_keys (values (cache s))) ->
  NoDup (Map_keys (values (cache (run' ops s)))).
Proof.
  revert s. induction ops as [| o ops IH]; intros s Hnd; [exact Hnd |].
  cbn [run fold_left]. apply IH. now apply step_nodup.
Qed.

(** X1. From construction on, whatever calls are made one after the
    other, no key is stored twice. *)
Theorem keys_unique
    (t0 : Z) (options : FlycacherOptions) (w0 : W) (ops : list (op K)) :
  NoDup (Map_keys (values (cache (run' ops (boot K V t0 options w0))))).
Proof. apply run_nodup. cbn. constructor. Qed.

(** X2. When calls are made one after the other (no call runs while a
    [get] awaits the miss callback) and the clock never runs backwards,
    then from construction on the entries are stored in the order of their
    timestamps and none carries a timestamp later than the clock: this is
    what lets the TTL scan stop at the first entry that has not
    expired. *)
Theorem entries_in_age_order
    (t0 : Z) (options : FlycacherOptions) (w0 : W) (ops : list (op K)) :
  let s := run' ops (boot K V t0 options w0) in
  by_age (values (cache s)) /\
  Forall (fun kv => entered (snd kv) <= clock s) (values (cache s)).
Proof.
  cbv zeta.
  pose proof (run_time_inv K_eq_dec missCallback ops
                (boot_time_inv K V t0 options w0)) as [Hs _ Hpast _].
  now split.
Qed.

(** The cursor after [prune] is not older than before, if the reading of
    line 104 is not earlier than the one of line 92. *)
Lemma prune_oldest_forward (now now' : Z) (c : Cache) :
  now <= now' -> oldest c <= oldest (prune' now now' c).
Proof.
  intros Hnow. rewrite prune_unfold.
  destruct (capacity_pass_spec_n K_eq_dec c) as (n1 & _ & ->). cbn [snd].
  set (c1 := set_values (skipn n1 (values c)) c).
  change (oldest c) with (oldest c1).
  destruct (ttl_pass_cases K_eq_dec now now' c1)
    as [Hidle | (t & n & old' & _ & Ht & _ & Hcur & _ & _ & -> & Hend)].
  - rewrite (ttl_pass_idle K_eq_dec now now' c1 Hidle). cbn [snd]. lia.
  - cbn [snd oldest].
    destruct Hend as [[_ ->] | (k & e & rest & _ & He & ->)]; lia.
Qed.

(** X3. The cursor [oldest] never moves back: no call leaves it at an
    earlier time than it found it. *)
Theorem oldest_never_moves_back (ops : list (op K)) (s : Sys K V W) :
  oldest (cache s) <= oldest (cache (run' ops s)).
Proof.
  revert s. induction ops as [| o ops IH]; intros s; [cbn; lia |].
  cbn [run fold_left]. etransitivity; [| apply IH].
  destruct o as [key d1 d2 d3 | d1 d2 | key |]; cbn [step].
  - set (now := clock s + Z.of_N d1).
    assert (Hp : oldest (cache s)
                 <= oldest (prune' now (now + Z.of_N d2) (cache s)))
      by (apply prune_oldest_forward; lia).
    split_get_call
      (get_cases K_eq_dec missCallback key now (now + Z.of_N d2)
         (now + Z.of_N d2 + Z.of_N d3) (cache s) (world s));
      cbn [cache oldest set_values]; exact Hp.
  - cbn [cache]. apply prune_oldest_forward. lia.
  - cbn. lia.
  - cbn. lia.
Qed.

End Invariants.

Section CapacityAndDelete.
Variables K V : Type.
Variable K_eq_dec : forall x y : K, {x = y} + {x <> y}.

Local Abbreviation Cache := (Flycacher K V).
Local Abbreviation Entries := (JsMap K (Entry V)).

(** X4. Under a valid configuration a capacity pass over a cache that is
    over capacity leaves exactly [capacity - pruneAmount] entries: it
    deletes [size - capacity + pruneAmount] of them, that is
    [pruneAmount + 1] when the cache is one entry over. *)
Theorem capacity_pass_exact (c : Cache) :
  0 <= pruneAmount c <= capacity c ->
  capacity c < Map_size (values c) ->
  let n := Z.to_nat (Map_size (values c) - capacity c + pruneAmount c) in
  capacity_pass K_eq_dec c
    = (Map_keys (firstn n (values c)), set_values (skipn n (values c)) c) /\
  Map_size (skipn n (values c)) = capacity c - pruneAmount c.
Proof.
  intros Hcfg Hover n.
  destruct (proj2 (capacity_pass_valid K_eq_dec c Hcfg) Hover)
    as (n0 & Hn0 & Hpass & Hend & Hmin).
  assert (Hlast : capacity c - pruneAmount c
                  < Map_size (skipn (n0 - 1) (values c)))
    by (apply Hmin; lia).
  rewrite Map_size_skipn in Hend, Hlast by lia.
  assert (Heq : n0 = n) by (subst n; lia).
  subst n0. split; [exact Hpass |].
  rewrite Map_size_skipn by lia. subst n. lia.
Qed.

(** X5. When [pruneAmount] is not smaller than [capacity], a capacity pass
    over a cache that is over capacity deletes every entry. *)
Theorem capacity_pass_evicts_all (c : Cache) :
  capacity c <= pruneAmount c ->
  capacity c < Map_size (values c) ->
  capacity_pass K_eq_dec c = (Map_keys (values c), set_values [] c).
Proof.
  intros Hcfg Hover. unfold capacity_pass.
  replace (capacity c <? Map_size (values c)) with true
    by (symmetry; apply Z.ltb_lt; exact Hover).
  destruct (capacity_loop_spec K_eq_dec (capacity c) (pruneAmount c)
              (values c)) as (n & Hn & -> & _ & Hend & _).
  assert (Hall : n = List.length (values c)).
  { destruct Hend as [Hend | Hend]; [| exact Hend].
    rewrite Map_size_skipn in Hend by exact Hn.
    unfold Map_size in Hend. lia. }
  rewrite Hall, firstn_all, skipn_all. reflexivity.
Qed.

Lemma Map_delete_absent (key : K) (m : Entries) :
  Map_get K_eq_dec key m = None -> Map_delete K_eq_dec key m = m.
Proof.
  induction m as [| [k y] m IH]; simpl; [reflexivity |].
  destruct (K_eq_dec key k); [discriminate |].
  intros H. now rewrite IH.
Qed.

Lemma Map_delete_present (key : K) (e : Entry V) (m : Entries) :
  Map_get K_eq_dec key m = Some e ->
  exists before after,
    m = before ++ (key, e) :: after /\
    Map_delete K_eq_dec key m = before ++ after /\
    ~ In key (Map_keys before).
Proof.
  induction m as [| [k y] m IH]; simpl; [discriminate |].
  destruct (K_eq_dec key k) as [<- | Hne].
  - intros [= ->]. exists [], m. simpl. tauto.
  - intros Hget. destruct (IH Hget) as (before & after & -> & -> & Hnot).
    exists ((k, y) :: before), after. simpl. repeat split; auto.
    intros [Hk | Hk]; [now elim Hne | contradiction].
Qed.

Lemma Map_get_delete_other (key k : K) (m : Entries) :
  k <> key ->
  Map_get K_eq_dec k (Map_delete K_eq_dec key m) = Map_get K_eq_dec k m.
Proof.
  intros Hne. induction m as [| [k' y] m IH]; simpl; [reflexivity |].
  destruct (K_eq_dec key k') as [<- | Hk'].
  - destruct (K_eq_dec k key); [contradiction | reflexivity].
  - simpl. destruct (K_eq_dec k k'); [reflexivity | exact IH].
Qed.

Lemma Map_get_delete_same (key : K) (m : Entries) :
  NoDup (Map_keys m) ->
  Map_get K_eq_dec key (Map_delete K_eq_dec key m) = None.
Proof.
  induction m as [| [k y] m IH]; simpl; [reflexivity |].
  intros Hnd. inversion Hnd as [| ? ? Hk Hnd']; subst.
  destruct (K_eq_dec key k) as [-> | Hne].
  - now apply Map_get_None.
  - simpl. destruct (K_eq_dec key k); [contradiction | now apply IH].
Qed.

(** X6. [delete] takes out the entry of the key and nothing else: it is
    a no-op on an absent key; on a present key the entries before and after
    it stay as they are, in their order; the lookup of any other key is
    unchanged; with unique keys the key is absent afterwards.  The
    configuration and the cursor are untouched. *)
Theorem delete_spec (key : K) (c : Cache) :
  (Map_get K_eq_dec key (values c) = None -> delete K_eq_dec key c = c) /\
  (forall e,
      Map_get K_eq_dec key (values c) = Some e ->
      exists before after,
        values c = before ++ (key, e) :: after /\
        values (delete K_eq_dec key c) = before ++ after) /\
  (forall k,
      k <> key ->
      Map_get K_eq_dec k (values (delete K_eq_dec key c))
        = Map_get K_eq_dec k (values c)) /\
  (NoDup (Map_keys (values c)) ->
   Map_get K_eq_dec key (values (delete K_eq_dec key c)) = None) /\
  capacity (delete K_eq_dec key c) = capacity c /\
  pruneAmount (delete K_eq_dec key c) = pruneAmount c /\
  ttl (delete K_eq_dec key c) = ttl c /\
  oldest (delete K_eq_dec key c) = oldest c.
Proof.
  unfold delete. cbn [values set_values capacity pruneAmount ttl oldest].
  repeat split.
  - intros Habs. rewrite (Map_delete_absent _ _ Habs).
    apply set_values_same.
  - intros e Hget.
    destruct (Map_delete_present _ _ Hget) as (before & after & H1 & H2 & _).
    now exists before, after.
  - intros k Hne. now apply Map_get_delete_other.
  - apply Map_get_delete_same.
Qed.
End CapacityAndDelete.

Section GetAndPrune.
Variables K V E W : Type.
Variable K_eq_dec : forall x y : K, {x = y} + {x <> y}.
Variable missCallback : K -> W -> (E + V) * W.

Local Abbreviation Cache := (Flycacher K V).
Local Abbreviation Entries := (JsMap K (Entry V)).
Local Abbreviation prune' := (prune K_eq_dec).
Local Abbreviation get' := (get K_eq_dec missCallback).
Local Abbreviation lookup := (Map_get K_eq_dec).
Local Abbreviation step' := (step K_eq_dec missCallback).
Local Abbreviation run' := (run K_eq_dec missCallback).

(** On an empty map [prune] does nothing: the passes find no key, and the
    reset of the cursor on line 104 is behind the test for a non-empty
    map. *)
Lemma prune_empty (now now' : Z) (c : Cache) :
  values c = [] -> prune' now now' c = c.
Proof.
  intros Hnil. unfold prune, prune_log.
  rewrite capacity_pass_idle by now right.
  rewrite ttl_pass_idle by now left.
  reflexivity.
Qed.

Lemma prune_keeps_absent (key : K) (now now' : Z) (c : Cache) :
  lookup key (values c) = None ->
  lookup key (values (prune' now now' c)) = None.
Proof.
  intros Habs.
  destruct (lookup key (values (prune' now now' c))) as [e |] eqn:Hget;
    [| reflexivity].
  apply Map_get_In, (In_prune K_eq_dec) in Hget.
  apply Map_get_None in Habs. elim Habs.
  change key with (fst (key, e)). now apply in_map.
Qed.

(** What [get] does on a key that is absent after pruning. *)
Lemma get_on_miss (key : K) (now now' now_set : Z) (c : Cache)
    (w : World K W) :
  lookup key (values (prune' now now' c)) = None ->
  get' key now now' now_set c w
    = match missCallback key (fst w) with
      | (inl err, w1) => (inl err, prune' now now' c, (w1, snd w ++ [key]))
      | (inr v, w1) =>
          (inr v,
           set_values (values (prune' now now' c) ++ [(key, mkEntry v now_set)])
             (prune' now now' c),
           (w1, snd w ++ [key]))
      end.
Proof.
  intros Hmiss. unfold get, invoke. rewrite Hmiss.
  destruct (missCallback key (fst w)) as [[err | v] w1]; [reflexivity |].
  now rewrite (Map_set_fresh K_eq_dec key _ _ Hmiss).
Qed.

(** X7. After [clear] every [get] is a miss, whatever the cache held and
    whatever its configuration: pruning leaves the cleared cache alone (the
    cursor [oldest] keeps its value), the miss callback is invoked, and a
    resolved value becomes the only entry. *)
Theorem clear_then_get
    (key : K) (now now' now_set : Z) (c : Cache) (w : World K W) :
  prune' now now' (clear c) = clear c /\
  oldest (clear c) = oldest c /\
  get' key now now' now_set (clear c) w
    = match missCallback key (fst w) with
      | (inl err, w1) => (inl err, clear c, (w1, snd w ++ [key]))
      | (inr v, w1) =>
          (inr v, set_values [(key, mkEntry v now_set)] (clear c),
           (w1, snd w ++ [key]))
      end.
Proof.
  assert (Hp : prune' now now' (clear c) = clear c)
    by (apply prune_empty; reflexivity).
  repeat split; [exact Hp |].
  rewrite get_on_miss by (rewrite Hp; reflexivity).
  rewrite Hp. reflexivity.
Qed.

(** X8. After [delete(key)] the next [get(key)] is a miss: from
    construction on, whatever calls came before, it invokes the miss
    callback and hands its outcome to the caller. *)
Theorem delete_then_get_misses
    (t0 : Z) (options : FlycacherOptions) (w0 : W) (ops : list (op K))
    (key : K) (now now' now_set : Z) :
  let s := run' ops (boot K V t0 options w0) in
  let r := get' key now now' now_set (delete K_eq_dec key (cache s)) (world s) in
  fst (fst r) = fst (missCallback key (fst (world s))) /\
  snd r = (snd (missCallback key (fst (world s))), snd (world s) ++ [key]).
Proof.
  intros s r. subst r.
  assert (Hnd : NoDup (Map_keys (values (cache s)))).
  { subst s. apply run_nodup. cbn. constructor. }
  rewrite get_on_miss.
  - destruct (missCallback key (fst (world s))) as [[err | v] w1]; now cbn.
  - apply prune_keeps_absent. cbn [delete values set_values].
    now apply Map_get_delete_same.
Qed.

(** X9. Without a ttl (missing, zero or negative in the options) entries
    never expire: from construction on [prune] is the capacity pass alone,
    and it returns a cache that is within capacity unchanged. *)
Theorem no_ttl_never_expires
    (t0 : Z) (options : FlycacherOptions) (w0 : W) (ops : list (op K)) :
  opt_ttl options = None \/ (exists t, opt_ttl options = Some t /\ t <= 0) ->
  let s := run' ops (boot K V t0 options w0) in
  forall now now' : Z,
    prune' now now' (cache s) = snd (capacity_pass K_eq_dec (cache s)) /\
    (Map_size (values (cache s)) <= capacity (cache s) ->
     prune' now now' (cache s) = cache s).
Proof.
  intros Hoff s now now'.
  assert (Httl : ttl (cache s) = None \/
                 exists t, ttl (cache s) = Some t /\ t <= 0).
  { subst s.
    destruct (run_config K_eq_dec missCallback ops (boot K V t0 options w0))
      as (_ & _ & ->).
    cbn. destruct Hoff as [-> | (t & -> & Ht)]; [now left |].
    destruct (t =? 0) eqn:Hz; [now left |].
    right. now exists t. }
  assert (Hprune : prune' now now' (cache s)
                   = snd (capacity_pass K_eq_dec (cache s))).
  { rewrite prune_unfold.
    destruct (capacity_pass_spec_n K_eq_dec (cache s)) as (n & _ & ->).
    cbn [snd]. rewrite ttl_pass_idle; [reflexivity |].
    cbn [ttl set_values]. right.
    destruct Httl as [Hnone | (t & Ht & Hle)]; [now left |].
    right. exists t. auto. }
  split; [exact Hprune |].
  intros Hsize. rewrite Hprune, capacity_pass_idle; [reflexivity | now left].
Qed.

Lemma prune_keeps_live (now now' : Z) (c : Cache) (kv : K * Entry V) :
  Map_size (values c) <= capacity c ->
  In kv (values c) ->
  (forall T, ttl c = Some T -> 0 < T -> now <= entered (snd kv) + T) ->
  In kv (values (prune' now now' c)).
Proof.
  intros Hsize Hin Hlive. rewrite prune_unfold.
  rewrite capacity_pass_idle by now left. cbn [snd].
  destruct (ttl_pass_cases K_eq_dec now now' c)
    as [Hidle | (t & n & old' & Httl & Ht & _ & _ & _ & Hexp & -> & _)].
  - now rewrite (ttl_pass_idle K_eq_dec now now' c Hidle).
  - cbn [snd values].
    rewrite <- (firstn_skipn n (values c)) in Hin.
    apply in_app_or in Hin as [Hin | Hin]; [| exact Hin].
    rewrite Forall_forall in Hexp. specialize (Hexp _ Hin).
    specialize (Hlive t Httl Ht). lia.
Qed.

(** X10. Within capacity, [prune] removes nothing but expired entries: an
    entry whose age at the reading of line 92 is at most the ttl stays. *)
Theorem prune_keeps_live_entries
    (now now' : Z) (c : Cache) (kv : K * Entry V) :
  Map_size (values c) <= capacity c ->
  In kv (values c) ->
  (forall T, ttl c = Some T -> 0 < T -> now <= entered (snd kv) + T) ->
  In kv (values (prune' now now' c)).
Proof. apply prune_keeps_live. Qed.

(** X11. A live entry is served from the cache: when the keys are unique,
    the cache is within capacity and the entry of the key has not outlived
    the ttl, [get] returns its value, does not invoke the miss callback and
    leaves the entry where it is, with its timestamp. *)
Theorem live_entry_is_served
    (key : K) (now now' now_set : Z) (c : Cache) (w : World K W)
    (e : Entry V) :
  NoDup (Map_keys (values c)) ->
  Map_size (values c) <= capacity c ->
  lookup key (values c) = Some e ->
  (forall T, ttl c = Some T -> 0 < T -> now <= entered e + T) ->
  get' key now now' now_set c w = (inr (value e), prune' now now' c, w) /\
  lookup key (values (prune' now now' c)) = Some e.
Proof.
  intros Hnd Hsize Hget Hlive.
  assert (Hin : In (key, e) (values (prune' now now' c))).
  { apply prune_keeps_live; auto. now apply Map_get_In in Hget. }
  assert (Hhit : lookup key (values (prune' now now' c)) = Some e).
  { apply In_Map_get; [| exact Hin].
    apply (prune_nodup K_eq_dec now now' c Hnd). }
  split; [| exact Hhit].
  unfold get. now rewrite Hhit.
Qed.
(** X12. With calls made one after the other (no call runs while a [get]
    awaits the miss callback) and a clock that never runs backwards, an
    expired entry is never served: from construction on, with a ttl
    [T > 0], a [get] called later than [entered + T] for the entry of its
    key invokes the miss callback. *)
Theorem expired_entry_is_refetched
    (t0 : Z) (options : FlycacherOptions) (w0 : W) (ops : list (op K))
    (T : Z) (key : K) (e : Entry V) (d1 d2 d3 : N) :
  opt_ttl options = Some T -> 0 < T ->
  let s := run' ops (boot K V t0 options w0) in
  lookup key (values (cache s)) = Some e ->
  entered e + T < clock s + Z.of_N d1 ->
  snd (world (step' (OpGet key d1 d2 d3) s)) = snd (world s) ++ [key].
Proof.
  intros Hopt HT s Hget Hexp.
  assert (Hinv : time_inv s) by apply run_time_inv, boot_time_inv.
  assert (Hnd : NoDup (Map_keys (values (cache s)))).
  { subst s. apply run_nodup. cbn. constructor. }
  assert (Httl : ttl (cache s) = Some T).
  { subst s.
    destruct (run_config K_eq_dec missCallback ops (boot K V t0 options w0))
      as (_ & _ & ->).
    cbn. rewrite Hopt.
    replace (T =? 0) with false; [reflexivity |].
    symmetry. apply Z.eqb_neq. lia. }
  cbn [step]. set (now := clock s + Z.of_N d1) in *.
  set (now' := now + Z.of_N d2). set (now_set := now' + Z.of_N d3).
  assert (Hmiss : lookup key (values (prune' now now' (cache s))) = None).
  { destruct (lookup key (values (prune' now now' (cache s))))
      as [e' |] eqn:Hget'; [| reflexivity].
    apply Map_get_In in Hget'.
    destruct (prune_time K_eq_dec now now' (cache s) (inv_sorted Hinv)
                (inv_oldest Hinv)) as (_ & _ & _ & Hfresh).
    specialize (Hfresh T Httl HT). rewrite Forall_forall in Hfresh.
    specialize (Hfresh _ Hget'). cbn in Hfresh.
    apply (In_prune K_eq_dec) in Hget'.
    apply (In_Map_get K_eq_dec _ _ _ Hnd) in Hget'.
    assert (e' = e) by congruence. subst e'. lia. }
  rewrite (get_on_miss key now now' now_set (cache s) (world s) Hmiss).
  destruct (missCallback key (fst (world s))) as [[err | v] w1]; now cbn.
Qed.

(** X13. With calls made one after the other (no call runs while a [get]
    awaits the miss callback) and a clock that never runs backwards: when
    every entry has expired, [prune] empties the map and sets the cursor
    [oldest] to the reading of line 104 (from construction on, with a ttl
    [T > 0] and a non-empty cache within capacity). *)
Theorem prune_all_expired
    (t0 : Z) (options : FlycacherOptions) (w0 : W) (ops : list (op K))
    (T now now' : Z) :
  opt_ttl options = Some T -> 0 < T ->
  let s := run' ops (boot K V t0 options w0) in
  values (cache s) <> [] ->
  Map_size (values (cache s)) <= capacity (cache s) ->
  Forall (fun kv => entered (snd kv) + T < now) (values (cache s)) ->
  values (prune' now now' (cache s)) = [] /\
  oldest (prune' now now' (cache s)) = now'.
Proof.
  intros Hopt HT s Hne Hsize Hexp.
  assert (Hinv : time_inv s) by apply run_time_inv, boot_time_inv.
  assert (Httl : ttl (cache s) = Some T).
  { subst s.
    destruct (run_config K_eq_dec missCallback ops (boot K V t0 options w0))
      as (_ & _ & ->).
    cbn. rewrite Hopt.
    replace (T =? 0) with false; [reflexivity |].
    symmetry. apply Z.eqb_neq. lia. }
  rewrite prune_unfold, capacity_pass_idle by now left. cbn [snd].
  pose proof (inv_oldest Hinv) as Hold.
  destruct (ttl_pass_cases K_eq_dec now now' (cache s))
    as [[Hnil | [Hnone | (t & Ht & Hcase)]]
       | (t & n & old' & Ht & _ & _ & _ & _ & _ & -> & Hend)].
  - contradiction.
  - congruence.
  - assert (t = T) by congruence. subst t.
    destruct Hcase as [Hneg | Hcur]; [lia |].
    destruct (values (cache s)) as [| kv m]; [contradiction |].
    inversion Hold; inversion Hexp; subst. lia.
  - assert (t = T) by congruence. subst t. cbn [snd values oldest].
    destruct Hend as [[Hnil ->] | (k & e & rest & Hcons & He & _)];
      [now split |].
    assert (Hin : In (k, e) (values (cache s))).
    { rewrite <- (firstn_skipn n (values (cache s))), Hcons.
      apply in_or_app. right. now left. }
    rewrite Forall_forall in Hexp. specialize (Hexp _ Hin). cbn in Hexp. lia.
Qed.

Lemma Map_set_last (key : K) (e e' : Entry V) (m : Entries) :
  lookup key m = None ->
  Map_set K_eq_dec key e' (m ++ [(key, e)]) = m ++ [(key, e')].
Proof.
  induction m as [| [k y] m IH]; simpl.
  - destruct (K_eq_dec key key) as [_ | Hne]; [reflexivity | now elim Hne].
  - destruct (K_eq_dec key k); [discriminate |].
    intros H. now rewrite IH.
Qed.

(** The parts of [get] before and after the await make up [get]. *)
Lemma get_start_resume
    (key : K) (now now' now_set : Z) (c : Cache) (w : World K W) :
  get' key now now' now_set c w
    = match get_start K_eq_dec missCallback key now now' c w with
      | (Returned _ v, c1, w1) => (inr v, c1, w1)
      | (Awaiting (inl err), c1, w1) => (inl err, c1, w1)
      | (Awaiting (inr v), c1, w1) =>
          (inr v, get_resume K_eq_dec key v now_set c1, w1)
      end.
Proof.
  unfold get, get_start, get_resume.
  destruct (lookup key (values (prune' now now' c))); [reflexivity |].
  now destruct (invoke missCallback key w) as [[err | v] w1].
Qed.

(** X14. Misses are not shared: when a second [get] of a missing key
    starts while the first one still awaits the miss callback, the callback
    is invoked once for each, and once both have resolved the key has one
    entry, at the end of what the second pruning left, holding the value
    and the timestamp of the call that resolved last. *)
Theorem overlapping_misses
    (key : K) (t1 t1' t2 t2' s1 s2 : Z) (c c1 c2 : Cache)
    (w w1 w2 : World K W) (v1 v2 : V) :
  get_start K_eq_dec missCallback key t1 t1' c w
    = (Awaiting (inr v1), c1, w1) ->
  get_start K_eq_dec missCallback key t2 t2' c1 w1
    = (Awaiting (inr v2), c2, w2) ->
  snd w2 = snd w ++ [key; key] /\
  values (get_resume K_eq_dec key v2 s2 (get_resume K_eq_dec key v1 s1 c2))
    = values c2 ++ [(key, mkEntry v2 s2)] /\
  values (get_resume K_eq_dec key v1 s1 (get_resume K_eq_dec key v2 s2 c2))
    = values c2 ++ [(key, mkEntry v1 s1)].
Proof.
  unfold get_start, invoke. intros Hfirst Hsecond.
  destruct (lookup key (values (prune' t1 t1' c))); [discriminate |].
  destruct (missCallback key (fst w)) as [r1 w1'].
  injection Hfirst as _ <- <-.
  destruct (lookup key (values (prune' t2 t2' (prune' t1 t1' c))))
    eqn:Hmiss; [discriminate |].
  cbn [fst snd] in Hsecond.
  destruct (missCallback key w1') as [r2 w2'].
  injection Hsecond as _ <- <-.
  cbn [snd]. rewrite <- app_assoc. split; [reflexivity |].
  unfold get_resume. cbn [values set_values].
  rewrite !(Map_set_fresh K_eq_dec key _ _ Hmiss).
  now rewrite !Map_set_last by exact Hmiss.
Qed.

Lemma step_world_log (o : op K) (s : Sys K V W) :
  snd (world (step' o s)) = snd (world s) \/
  exists key d1 d2 d3,
    o = OpGet key d1 d2 d3 /\
    snd (world (step' o s)) = snd (world s) ++ [key].
Proof.
  destruct o as [key d1 d2 d3 | d1 d2 | key |]; cbn [step];
    try (now left).
  set (now := clock s + Z.of_N d1).
  split_get_call
    (get_cases K_eq_dec missCallback key now (now + Z.of_N d2)
       (now + Z.of_N d2 + Z.of_N d3) (cache s) (world s));
    cbn [world snd]; [now left | right | right];
    now exists key, d1, d2, d3.
Qed.

(** X15. The miss callback is invoked by [get] only, at most once in each
    call and with the key of that call: over any sequence of calls the log
    of invocations grows by keys that a [get] of the sequence asked for,
    by no more keys than there are [get] calls. *)
Theorem callback_only_on_get (ops : list (op K)) (s : Sys K V W) :
  exists ks : list K,
    snd (world (run' ops s)) = snd (world s) ++ ks /\
    (List.length ks
     <= List.length
          (filter (fun o => match o with OpGet _ _ _ _ => true | _ => false end)
             ops))%nat /\
    forall k, In k ks -> exists d1 d2 d3, In (OpGet k d1 d2 d3) ops.
Proof.
  revert s. induction ops as [| o ops IH]; intros s.
  - exists []. cbn. rewrite app_nil_r. repeat split; auto; cbn; tauto.
  - cbn [run fold_left]. fold (run' ops (step' o s)).
    destruct (IH (step' o s)) as (ks & Hlog & Hlen & Hkeys).
    destruct (step_world_log o s) as [Hsame | (key & d1 & d2 & d3 & -> & Hone)].
    + exists ks. rewrite Hlog, Hsame. repeat split.
      * cbn [filter]. destruct o; cbn [List.length]; lia.
      * intros k Hk. destruct (Hkeys k Hk) as (e1 & e2 & e3 & Hin).
        exists e1, e2, e3. now right.
    + exists (key :: ks). rewrite Hlog, Hone, <- app_assoc.
      repeat split.
      * cbn [filter List.length]. lia.
      * intros k [<- | Hk]; [exists d1, d2, d3; now left |].
        destruct (Hkeys k Hk) as (e1 & e2 & e3 & Hin).
        exists e1, e2, e3. now right.
Qed.
End GetAndPrune.

(** * The further properties on concrete caches *)

Lemma capacity_pass_exact_witness :
  capacity_pass string_dec sample_abcd
    = (["a"; "b"; "c"], set_values [("d", mkEntry 1 0)] sample_abcd) /\
  Map_size [("d", mkEntry 1 0)] = 3 - 2.
Proof.
  assert (Hcfg : 0 <= pruneAmount sample_abcd <= capacity sample_abcd)
    by (cbn; lia).
  assert (Hover : capacity sample_abcd < Map_size (values sample_abcd))
    by (cbn; lia).
  exact (capacity_pass_exact string_dec sample_abcd Hcfg Hover).
Defined.

Lemma capacity_pass_evicts_all_witness :
  capacity_pass string_dec sample_greedy
    = (["a"; "b"], set_values [] sample_greedy).
Proof.
  apply (capacity_pass_evicts_all string_dec sample_greedy); cbn; lia.
Defined.

Lemma no_ttl_never_expires_witness :
  prune string_dec 5000 5000
    (cache (sample_run [sample_get "a"; sample_get "b"]
              (sample_boot sample_options)))
    = cache (sample_run [sample_get "a"; sample_get "b"]
               (sample_boot sample_options)).
Proof.
  assert (Hoff : opt_ttl sample_options = None \/
                 exists t, opt_ttl sample_options = Some t /\ t <= 0)
    by (left; reflexivity).
  apply (no_ttl_never_expires string_dec sample_miss 0 sample_options 0%nat
           [sample_get "a"; sample_get "b"] Hoff 5000 5000).
  cbn. lia.
Defined.

Lemma prune_keeps_live_entries_witness :
  In ("x", mkEntry 1 0) (values (prune string_dec 1000 1000 (cache sample_x))).
Proof.
  apply (prune_keeps_live_entries string_dec (now := 1000) 1000
           (cache sample_x) ("x", mkEntry 1 0)).
  - cbn. lia.
  - cbn. now left.
  - cbn. intros T [= <-] _. lia.
Defined.

Lemma live_entry_is_served_witness :
  get string_dec sample_miss "x" 500 500 500 (cache sample_x) (world sample_x)
    = (inr 1, prune string_dec 500 500 (cache sample_x), world sample_x) /\
  Map_get string_dec "x" (values (prune string_dec 500 500 (cache sample_x)))
    = Some (mkEntry 1 0).
Proof.
  apply (live_entry_is_served string_dec sample_miss "x" (now := 500) 500 500
           (cache sample_x) (world sample_x) (e := mkEntry 1 0)).
  - cbn. repeat constructor. intros [].
  - cbn. lia.
  - reflexivity.
  - cbn. intros T [= <-] _. lia.
Defined.

Lemma expired_entry_is_refetched_witness :
  snd (world (sample_run [sample_get "x"; OpGet "x" 1001 0 0]
                (sample_boot sample_ttl_options)))
    = ["x"; "x"].
Proof.
  assert (Httl : opt_ttl sample_ttl_options = Some 1000) by reflexivity.
  assert (HT : 0 < 1000) by lia.
  apply (expired_entry_is_refetched string_dec sample_miss 0
           sample_ttl_options 0%nat [sample_get "x"] "x" (e := mkEntry 1 0)
           1001 0 0 Httl HT).
  - reflexivity.
  - cbn. lia.
Defined.

Lemma prune_all_expired_witness :
  values (prune string_dec 1001 1002 (cache sample_x)) = [] /\
  oldest (prune string_dec 1001 1002 (cache sample_x)) = 1002.
Proof.
  assert (Httl : opt_ttl sample_ttl_options = Some 1000) by reflexivity.
  assert (HT : 0 < 1000) by lia.
  apply (prune_all_expired string_dec sample_miss 0 sample_ttl_options 0%nat
           [sample_get "x"] (now := 1001) 1002 Httl HT).
  - cbn. discriminate.
  - cbn. lia.
  - cbn. repeat constructor.
Defined.

Lemma overlapping_misses_witness :
  values
    (get_resume string_dec "a" 1 9
       (get_resume string_dec "a" 1 7 (new_Flycacher string Z 0 sample_options)))
    = [("a", mkEntry 1 9)].
Proof.
  assert (Hfirst :
            get_start string_dec sample_miss "a" 0 0
              (new_Flycacher string Z 0 sample_options) (0%nat, [])
            = (Awaiting (inr 1), new_Flycacher string Z 0 sample_options,
               (1%nat, ["a"]))) by reflexivity.
  assert (Hsecond :
            get_start string_dec sample_miss "a" 0 0
              (new_Flycacher string Z 0 sample_options) (1%nat, ["a"])
            = (Awaiting (inr 1), new_Flycacher string Z 0 sample_options,
               (2%nat, ["a"; "a"]))) by reflexivity.
  exact (proj1 (proj2 (overlapping_misses string_dec sample_miss "a" 0 0 0 0
                         7 9 _ _ Hfirst Hsecond))).
Defined.

(** * Calls that overlap *)

Section Overlap.
Variables K V E W : Type.
Variable K_eq_dec : forall x y : K, {x = y} + {x <> y}.
Variable missCallback : K -> W -> (E + V) * W.

Local Abbreviation step' := (step K_eq_dec missCallback).
Local Abbreviation run' := (run K_eq_dec missCallback).
Local Abbreviation irun' := (irun K_eq_dec missCallback).

(** A call made on its own is its schedule run while nothing awaits. *)
Lemma step_is_schedule (o : op K) (s : Sys K V W) :
  irun' (schedule_of o) (idle s) = idle (step' o s).
Proof.
  destruct o as [key d1 d2 d3 | d1 d2 | key |];
    cbn [schedule_of irun fold_left istep step idle icache iworld iclock
         awaiting cache world clock]; try reflexivity.
  rewrite (get_start_resume K_eq_dec missCallback).
  destruct (get_start K_eq_dec missCallback key (clock s + Z.of_N d1)
              (clock s + Z.of_N d1 + Z.of_N d2) (cache s) (world s))
    as [[[v | [err | v]] c] w];
    cbn [icache iworld iclock awaiting nth_error app cache world clock];
    reflexivity.
Qed.

(** The calls of [run] are the overlapping calls of [irun] on the
    schedules that resume every [get] before the next call. *)
Lemma run_is_irun (ops : list (op K)) (s : Sys K V W) :
  irun' (flat_map (@schedule_of K) ops) (idle s) = idle (run' ops s).
Proof.
  revert s. induction ops as [| o ops IH]; intros s; [reflexivity |].
  cbn [flat_map run fold_left]. unfold irun.
  rewrite fold_left_app. fold (irun' (schedule_of o) (idle s)).
  rewrite step_is_schedule. apply IH.
Qed.
End Overlap.

(** C6 fails when calls overlap.  Two calls of [get] for [k] start; one
    resolves at time 1, a [get] for [j] resolves at time 2, the other
    [get] for [k] resolves at time 20 and overwrites the entry of [k] in
    its place.  The [prune] at time 21 stops at [k] and sets [oldest] to
    20, newer than the entry of [j]. *)
Lemma oldest_overlap_counterexample :
  values (icache sample_overlap)
    = [("k", mkEntry 1 20); ("j", mkEntry 1 2)] /\
  oldest (icache sample_overlap) = 20 /\
  ~ Forall (fun kv => oldest (icache sample_overlap) <= entered (snd kv))
      (values (icache sample_overlap)).
Proof.
  cbn. repeat split.
  intros Hall. inversion Hall as [| ? ? _ Hrest]; subst.
  inversion Hrest as [| ? ? Hj _]; subst. cbn in Hj. lia.
Qed.

(** What the overlap above does to the later calls: the [get] for [j] at
    time 22 is a hit although the entry is 20 old under a ttl of 10, and
    after [delete] of [k] the [prune] at time 25 leaves it in the map. *)
Lemma overlap_keeps_expired_entry :
  get_start string_dec sample_miss "j" 22 22
      (icache sample_overlap) (iworld sample_overlap)
    = (Returned string 1, icache sample_overlap, iworld sample_overlap) /\
  values
    (icache
       (irun string_dec sample_miss [IDelete "k"; IPrune string 4 0]
          sample_overlap))
    = [("j", mkEntry 1 2)].
Proof. split; reflexivity. Qed.

(** Three calls of [get] that overlap on a cache of capacity 1 leave three
    entries: each pruned before any of them stored its entry. *)
Lemma overlapping_gets_exceed_capacity :
  Map_size
    (values
       (icache
          (irun string_dec sample_miss
             [IStart "a" 0 0; IStart "b" 0 0; IStart "c" 0 0;
              IResume string 0 0; IResume string 0 0; IResume string 0 0]
             (iboot string Z 0 (mkOptions 1 1 None) 0%nat))))
    = 3.
Proof. reflexivity. Qed.
